(** * xxrpc: a shallow embedding of the RPC registry, server loop and client
    call multiplexer, with the properties of its specification.

    Layout: the definitions of every package first ([reflect], [xxcode],
    [common], [service], [server], [client]), then the theorems.

    Conventions.
    - A Go [error] is an [option string]: [None] is [nil], [Some msg] is an
      error whose [Error()] text is [msg].
    - [uint64] is a [Z] in [0, 2^64) with the wrap-around written out
      ([wrap64]); [time.Duration] is a [Z] (nanoseconds).
    - [*Call] pointers are addresses ([positive]) into a heap of [Call]
      records, so that the aliasing between the pending map, the reader and
      the awaiting caller is kept.
    - Go maps are [gmap]s. *)

From Stdlib Require Import ZArith Lia Ascii.
From stdpp Require Import base option gmap strings list.

Local Open Scope string_scope.
Local Open Scope list_scope.
Local Open Scope Z_scope.

(** Go's [error] interface value. *)
Definition error := option string.

Definition is_nil {A} (o : option A) : bool :=
  match o with None => true | Some _ => false end.

(** [uint64] arithmetic. *)
Definition two64 : Z := 2 ^ 64.
Definition wrap64 (z : Z) : Z := z mod two64.

(** ** Functions of the Go standard library used by the code.

    They are not part of the repository; the code is modelled over any
    implementation of them. *)
Class GoLib := {
  (** [go/ast.IsExported]: the name starts with an upper-case letter. *)
  IsExported : string -> bool;
  (** [time.Duration.String], what [%s] prints for a duration. *)
  DurationString : Z -> string;
  (** [fmt.Errorf(format)] with no operand: the text of the error it
      builds. The format is interpreted, so that a [%] and what follows it
      are rewritten. *)
  Errorf : string -> string
}.

(** An instance to run the definitions on examples: names are tested on
    their first byte (ASCII letters), [seconds_String] prints the two
    durations the examples use, one second and zero, and [plain_Errorf]
    gives a format back as it is, which is what [fmt.Errorf] does with the
    formats of the examples, none of which holds a [%]. *)
Definition ascii_is_upper (a : Ascii.ascii) : bool :=
  let n := Ascii.N_of_ascii a in ((65 <=? n) && (n <=? 90))%N.

Definition ascii_IsExported (s : string) : bool :=
  match s with
  | EmptyString => false
  | String a _ => ascii_is_upper a
  end.

Definition seconds_String (d : Z) : string :=
  if d =? 1000000000 then "1s"
  else if d =? 0 then "0s"
  else "<duration>".

Definition plain_Errorf (format : string) : string := format.

Definition ascii_lib : GoLib :=
  {| IsExported := ascii_IsExported; DurationString := seconds_String;
     Errorf := plain_Errorf |}.

(** ** Strings: [strings.LastIndex] and slicing *)

(** [LastIndex_from s substr i]: the index, counted from [i] at the head of
    [s], of the last occurrence of [substr] in [s], or [-1]. *)
Fixpoint LastIndex_from (s substr : string) (i : Z) : Z :=
  match s with
  | EmptyString => if String.prefix substr EmptyString then i else -1
  | String _ s' =>
      let r := LastIndex_from s' substr (i + 1) in
      if 0 <=? r then r
      else if String.prefix substr s then i else -1
  end.

Definition LastIndex (s substr : string) : Z := LastIndex_from s substr 0.

(** Whether the byte ["."] occurs in the string. *)
Fixpoint has_dot (s : string) : bool :=
  match s with
  | EmptyString => false
  | String a s' => Ascii.eqb a "."%char || has_dot s'
  end.

(** [s[:hi]] and [s[lo:]] for indices in range. *)
Definition slice_to (s : string) (hi : Z) : string :=
  String.substring 0 (Z.to_nat hi) s.

Definition slice_from (s : string) (lo : Z) : string :=
  String.substring (Z.to_nat lo) (String.length s - Z.to_nat lo)%nat s.

(** * Package reflect (the part of Go's reflection the registry uses) *)
Module reflect.

Inductive Kind :=
| Bool | Int | Uint64 | Float64 | String_ | Struct | Interface
| Ptr | Map | Slice.

(** Run-time types. A predeclared type ([int], [string], [error]) has a
    name and an empty package path; a defined type has both and takes its
    kind from its underlying type; a pointer, slice, map or struct literal
    has neither. *)
Inductive Type_ :=
| Predeclared (name : string) (k : Kind)
| Defined (pkgPath name : string) (underlying : Type_)
| PtrTo (elem : Type_)
| SliceOf (elem : Type_)
| MapOf (key elem : Type_)
| StructLit.

Fixpoint kind (t : Type_) : Kind :=
  match t with
  | Predeclared _ k => k
  | Defined _ _ u => kind u
  | PtrTo _ => Ptr
  | SliceOf _ => Slice
  | MapOf _ _ => Map
  | StructLit => Struct
  end.

Definition Name (t : Type_) : string :=
  match t with
  | Predeclared n _ => n
  | Defined _ n _ => n
  | _ => EmptyString
  end.

Definition PkgPath (t : Type_) : string :=
  match t with
  | Defined p _ _ => p
  | _ => EmptyString
  end.

(** [Type.Elem]: panics ([None]) unless the kind is pointer, slice or map
    (arrays and channels are not modelled). *)
Fixpoint Elem (t : Type_) : option Type_ :=
  match t with
  | PtrTo e | SliceOf e | MapOf _ e => Some e
  | Defined _ _ u => Elem u
  | _ => None
  end.

#[export] Instance Kind_eq_dec : EqDecision Kind.
Proof. solve_decision. Defined.

#[export] Instance Type_eq_dec : EqDecision Type_.
Proof. solve_decision. Defined.

(** The type of the [error] interface, which the code obtains from a nil
    pointer to [error] through [reflect.TypeOf] and [Elem]. *)
Definition errorType : Type_ := Predeclared "error" Interface.
Definition intType : Type_ := Predeclared "int" Int.
Definition stringType : Type_ := Predeclared "string" String_.

(** A method of a type's method set: its name and its function type, the
    receiver being the first input. *)
Record Method := {
  MName : string;
  In : list Type_;
  Out : list Type_
}.

Definition NumIn (m : Method) : Z := Z.of_nat (length (In m)).
Definition NumOut (m : Method) : Z := Z.of_nat (length (Out m)).

(** [mType.In(i)], [mType.Out(i)]; the code calls them in range only. *)
Definition In_ (m : Method) (i : nat) : Type_ := nth i (In m) StructLit.
Definition Out_ (m : Method) (i : nat) : Type_ := nth i (Out m) StructLit.

(** Values built by [reflect.New], [MakeMap] and [MakeSlice]. *)
Inductive Value :=
| Zero (t : Type_)
| PtrToValue (v : Value)
| EmptyMap (t : Type_)
| EmptySlice (t : Type_).

(** A receiver passed to [Register]: its dynamic type and the exported
    methods of that type, in the order [Type.Method(i)] lists them. *)
Record Receiver := {
  rType : Type_;
  rMethods : list Method
}.

(** Type of [reflect.Indirect(v)] for a non-nil [v]. *)
Definition IndirectType (t : Type_) : Type_ :=
  match kind t with
  | Ptr => match Elem t with Some e => e | None => t end
  | _ => t
  end.

End reflect.

(** * Package xxcode *)
Module xxcode.

Record Header := {
  ServiceMethod : string;
  SeqId : Z;
  Error : string
}.

(** A message body as the codec carries it. [VInvalidRequest] is the
    server's placeholder [struct{}{}]. *)
Inductive Body :=
| VInt (z : Z)
| VStr (s : string)
| VInvalidRequest.

(** What travels on the stream: the codec writes one header frame and one
    body frame per message. *)
Inductive Frame :=
| FHeader (h : Header)
| FBody (b : Body).

(** The [Code] interface. [ReadHeader] gives the header read ([inl]) or
    the error ([inr]). [ReadBody] takes the type of the value its
    destination points to, [None] when the destination is [nil], and gives
    the value decoded, if any, and the error. A codec is a value; each
    operation returns the codec after it. *)
Class Code (C : Type) := {
  ReadHeader : C -> C * (Header + string);
  ReadBody : C -> option reflect.Type_ -> C * (option Body * error);
  Write : C -> Header -> Body -> C * error;
  Close : C -> C
}.

(** The type [gob] decodes into for a destination of type [t]: the decoder
    follows (and allocates) the pointers of the destination. *)
Fixpoint base (t : reflect.Type_) : reflect.Type_ :=
  match t with
  | reflect.PtrTo e => base e
  | reflect.Defined _ _ u =>
      match reflect.kind u with
      | reflect.Ptr => base u
      | _ => t
      end
  | _ => t
  end.

(** Whether [gob] decodes the value [b] into a destination of type [t]: an
    integer into a signed integer, a string into a string, the empty struct
    into a struct. Every other pair is a type mismatch. *)
Definition decodes_into (b : Body) (t : reflect.Type_) : bool :=
  match b, reflect.kind (base t) with
  | VInt _, reflect.Int => true
  | VStr _, reflect.String_ => true
  | VInvalidRequest, reflect.Struct => true
  | _, _ => false
  end.

(** A codec over a list of incoming frames, standing for [GobCode] on a
    connection: the decoder takes the next frame whatever it is, and fails
    when the frame does not decode into the destination; at the end of the
    stream it fails with [EOF]. Written frames are appended to
    [outgoing]. The text ["gob: type mismatch"] stands for the message of
    the decoder. *)
Record FrameCode := {
  incoming : list Frame;
  outgoing : list Frame;
  closed : bool
}.

Definition frame_ReadHeader (c : FrameCode) : FrameCode * (Header + string) :=
  match incoming c with
  | [] => (c, inr "EOF")
  | FHeader h :: rest =>
      ({| incoming := rest; outgoing := outgoing c; closed := closed c |},
       inl h)
  | FBody _ :: rest =>
      ({| incoming := rest; outgoing := outgoing c; closed := closed c |},
       inr "gob: type mismatch")
  end.

(** [ReadBody]: [Decode(nil)] reads the next value and drops it, whatever
    it is; [Decode(body)] stores a body that decodes into the destination
    and fails on any other frame. A header frame is taken to decode into
    no destination: the types of the model carry no fields, which is what
    the decoder would match a header on. *)
Definition frame_ReadBody (c : FrameCode) (dest : option reflect.Type_)
  : FrameCode * (option Body * error) :=
  match incoming c with
  | [] => (c, (None, Some "EOF"))
  | f :: rest =>
      let c' := {| incoming := rest; outgoing := outgoing c;
                   closed := closed c |} in
      match dest, f with
      | None, _ => (c', (None, None))
      | Some t, FBody b =>
          if decodes_into b t then (c', (Some b, None))
          else (c', (None, Some "gob: type mismatch"))
      | Some _, FHeader _ => (c', (None, Some "gob: type mismatch"))
      end
  end.

Definition frame_Close (c : FrameCode) : FrameCode :=
  {| incoming := incoming c; outgoing := outgoing c; closed := true |}.

(** [Write]: header then body; on a closed connection the encoder fails
    and the codec closes itself. *)
Definition frame_Write (c : FrameCode) (h : Header) (b : Body) : FrameCode * error :=
  if closed c then (frame_Close c, Some "write on closed connection")
  else ({| incoming := incoming c;
           outgoing := outgoing c ++ [FHeader h; FBody b];
           closed := false |}, None).

#[export] Instance FrameCode_Code : Code FrameCode := {|
  ReadHeader := frame_ReadHeader;
  ReadBody := frame_ReadBody;
  Write := frame_Write;
  Close := frame_Close
|}.

(** Codec names. *)
Definition Type_Gob : string := "application/gob".
Definition Type_Json : string := "application/json".

(** [NewCodeFunc]: the constructors of codecs. There is one, [NewGobCode]. *)
Inductive NewCodeFunc := NewGobCode.

(** [NewCodeFuncMap] as [init] fills it. *)
Definition NewCodeFuncMap : gmap string NewCodeFunc :=
  {[ Type_Gob := NewGobCode ]}.

End xxcode.

(** * Package common *)
Module common.

Definition MagicNumber : Z := 0x3bef5c.

Record Option := {
  OptMagicNumber : Z;
  CodeType : string;
  ConnectTimeout : Z;
  HandleTimeout : Z
}.

Definition second : Z := 1000000000.

Definition DefaultOption : Option :=
  {| OptMagicNumber := MagicNumber;
     CodeType := xxcode.Type_Gob;
     ConnectTimeout := second * 10;
     HandleTimeout := 0 |}.

End common.

(** * Package service *)
Module service.
Import reflect.

Record MethodType := {
  Method_ : reflect.Method;
  ArgType : Type_;
  ReplyType : Type_;
  NumCalls : Z
}.

Record Service := {
  SName : string;
  Typ : Type_;
  Rcvr : Receiver;
  Method : gmap string MethodType
}.

Section WithGoLib.
Context `{GoLib}.

Definition isExportedOrBuiltinType (t : Type_) : bool :=
  IsExported (Name t) || bool_decide (PkgPath t = EmptyString).

(** The body of the loop of [RegisterMethods] for one method: the map
    after it. Each [continue] leaves the map as it is. *)
Definition RegisterMethods_body (acc : gmap string MethodType)
    (method : reflect.Method) : gmap string MethodType :=
  if negb (NumIn method =? 3) || negb (NumOut method =? 1) then acc
  else if negb (bool_decide (Out_ method 0 = errorType)) then acc
  else
    let argType := In_ method 1 in
    let replyType := In_ method 2 in
    if negb (isExportedOrBuiltinType argType)
       || negb (isExportedOrBuiltinType replyType) then acc
    else
      <[ MName method :=
           {| Method_ := method; ArgType := argType;
              ReplyType := replyType; NumCalls := 0 |} ]> acc.

(** [RegisterMethods]: the loop over [s.Typ.Method(i)], from an empty
    map. *)
Definition RegisterMethods (methods : list reflect.Method)
  : gmap string MethodType :=
  foldl RegisterMethods_body ∅ methods.

(** The tests of [RegisterMethods] that a method passes to be stored,
    taken together, and the entry stored for it. *)
Definition accepted (m : reflect.Method) : bool :=
  (NumIn m =? 3) && (NumOut m =? 1)
  && bool_decide (Out_ m 0 = errorType)
  && isExportedOrBuiltinType (In_ m 1)
  && isExportedOrBuiltinType (In_ m 2).

Definition entry (m : reflect.Method) : MethodType :=
  {| Method_ := m; ArgType := In_ m 1; ReplyType := In_ m 2;
     NumCalls := 0 |}.

(** [NewService]. [inr msg] is [log.Fatalf]: the process exits. *)
Definition NewService (rcvr : Receiver) : Service + string :=
  let name := Name (IndirectType (rType rcvr)) in
  if negb (IsExported name)
  then inr ("rpc server: " +:+ name +:+ " is not a valid service name")
  else inl {| SName := name; Typ := rType rcvr; Rcvr := rcvr;
              Method := RegisterMethods (rMethods rcvr) |}.

End WithGoLib.

(** [NewArgv] *)
Definition NewArgv (m : MethodType) : option Value :=
  match kind (ArgType m) with
  | Ptr => e ← Elem (ArgType m); Some (PtrToValue (Zero e))
  | _ => Some (Zero (ArgType m))
  end.

(** [NewReplyv]: [None] is the panic of [Elem] on a type that is not a
    pointer. *)
Definition NewReplyv (m : MethodType) : option Value :=
  e ← Elem (ReplyType m);
  Some (match kind e with
        | Map => PtrToValue (EmptyMap e)
        | Slice => PtrToValue (EmptySlice e)
        | _ => PtrToValue (Zero e)
        end).

End service.

(** * Package server: the registry *)
Module server.
Import xxcode reflect service.

Record Server := { serviceMap : gmap string Service }.

Definition NewServer : Server := {| serviceMap := ∅ |}.

(** [sync.Map.LoadOrStore]: the value kept under the key, and whether it
    was there before. *)
Definition LoadOrStore (m : gmap string Service) (k : string) (v : Service)
  : gmap string Service * (Service * bool) :=
  match m !! k with
  | Some old => (m, (old, true))
  | None => (<[k := v]> m, (v, false))
  end.

Section WithGoLib.
Context `{GoLib}.

(** [Register]. [inr msg]: [NewService] ended the process. *)
Definition Register (s : Server) (rcvr : Receiver) : (Server * error) + string :=
  match NewService rcvr with
  | inr fatal => inr fatal
  | inl svc =>
      let '(m, (_, dup)) := LoadOrStore (serviceMap s) (SName svc) svc in
      if dup
      then inl ({| serviceMap := m |},
                Some ("rpc: service already defined: " +:+ SName svc))
      else inl ({| serviceMap := m |}, None)
  end.
End WithGoLib.

(** [findService]: the named results [(svc, mtype, err)]. The two
    [fmt.Printf] of the source write to the standard output only. *)
Definition findService (s : Server) (serviceMethod : string)
  : option Service * option MethodType * error :=
  let dot := LastIndex serviceMethod "." in
  if dot <? 0 then
    (None, None,
     Some ("rpc server: service/method request ill-formed: " +:+ serviceMethod))
  else
    let serviceName := slice_to serviceMethod dot in
    let methodName := slice_from serviceMethod (dot + 1) in
    match serviceMap s !! serviceName with
    | None => (None, None, Some ("rpc server: can't find service " +:+ serviceName))
    | Some svc =>
        match Method svc !! methodName with
        | None => (Some svc, None,
                   Some ("rpc server: can't find method " +:+ methodName))
        | Some mtype => (Some svc, Some mtype, None)
        end
    end.

(** ** The read loop *)

(** [request]: the header is the one the responses are sent with; [argv]
    is the decoded argument. *)
Record request := {
  head : Header;
  argv : option Body;
  replyv : option Value;
  mtype : option MethodType;
  svc : option Service
}.

Definition with_Error (h : Header) (e : string) : Header :=
  {| ServiceMethod := ServiceMethod h; SeqId := SeqId h; Error := e |}.

(** [invalidRequest], the placeholder body of an error response. *)
Definition invalidRequest : Body := VInvalidRequest.

(** What [serveCode] leaves behind: the codec, and the handlers it started
    with [go s.handleRequest(..., opt.HandleTimeout)], in order. The
    responses the handlers write are theirs (see [handle]); the responses
    [serveCode] writes itself go through the codec. *)
Inductive ServeResult (C : Type) :=
| Served (cc : C) (handlers : list (request * Z))
| Panicked (cc : C) (handlers : list (request * Z))
| OutOfFuel.
Arguments Served {C}.
Arguments Panicked {C}.
Arguments OutOfFuel {C}.

Section WithCode.
Context {C : Type} `{Code C}.

Definition readRequestHeader (cc : C) : C * (Header + string) :=
  ReadHeader cc.

(** [readRequest]: [None] is a panic (of [NewArgv] or [NewReplyv]);
    otherwise the codec after the reads, and the pair [(req, err)]. *)
Definition readRequest (s : Server) (cc : C)
  : option (C * (option request * error)) :=
  match readRequestHeader cc with
  | (cc1, inr err) => Some (cc1, (None, Some err))
  | (cc1, inl h) =>
      let '(svc_, mtype_, err) := findService s (ServiceMethod h) in
      match err, mtype_ with
      | Some e, _ =>
          Some (cc1, (Some {| head := h; argv := None; replyv := None;
                              mtype := mtype_; svc := svc_ |}, Some e))
      | None, None => None
      | None, Some mt =>
          match NewArgv mt, NewReplyv mt with
          | Some _, Some rv =>
              (* [argvi] points to a value of the argument type, or of
                 its element type when the argument is a pointer *)
              let '(cc2, (body, err2)) :=
                ReadBody cc1 (Some (IndirectType (ArgType mt))) in
              let req := {| head := h; argv := body; replyv := Some rv;
                            mtype := mtype_; svc := svc_ |} in
              Some (cc2, (Some req, err2))
          | _, _ => None
          end
      end
  end.

(** [sendResponse]: the write error is only logged. *)
Definition sendResponse (cc : C) (h : Header) (body : Body) : C :=
  fst (Write cc h body).

(** The [for] loop of [serveCode], one iteration per unit of fuel. *)
Fixpoint serveCode_loop (fuel : nat) (s : Server) (cc : C)
    (timeout : Z) (handlers : list (request * Z)) : ServeResult C :=
  match fuel with
  | O => OutOfFuel
  | S fuel' =>
      match readRequest s cc with
      | None => Panicked cc handlers
      | Some (cc1, (req, Some err)) =>
          match req with
          | None => Served (Close cc1) handlers
          | Some r =>
              let cc2 := sendResponse cc1 (with_Error (head r) err)
                                      invalidRequest in
              serveCode_loop fuel' s cc2 timeout handlers
          end
      | Some (cc1, (Some r, None)) =>
          serveCode_loop fuel' s cc1 timeout (handlers ++ [(r, timeout)])
      | Some (cc1, (None, None)) => Panicked cc1 handlers
      end
  end.

Definition serveCode (fuel : nat) (s : Server) (cc : C)
    (opt : common.Option) : ServeResult C :=
  serveCode_loop fuel s cc (common.HandleTimeout opt) [].

End WithCode.

(** ** [handleRequest]: the parent and its worker goroutine

    The two run concurrently and meet on the unbuffered channels [called]
    and [sent]: a send and a receive on such a channel happen together, as
    one step. The timer of [time.After] may fire at any moment at which the
    parent is in its [select]. Each [sendResponse] is one step, as it runs
    under the [sending] mutex; it writes the request's header as it is
    then, [req.head] being shared by the two. *)

(** Where the worker is. *)
Inductive WorkerPc :=
| WCall                                   (* in [req.svc.Call] *)
| WSendCalled (err : error) (reply : Body) (* at [called <- struct{}{}] *)
| WRespond (err : error) (reply : Body)    (* before its [sendResponse] *)
| WSendSent                               (* at [sent <- struct{}{}] *)
| WDone.

(** Where the parent is. *)
Inductive ParentPc :=
| PRecvCalled      (* [<-called], the branch [timeout == 0] *)
| PSelect          (* the [select] on the timer and [called] *)
| PTimedOut        (* the timer branch, before its [sendResponse] *)
| PRecvSent        (* [<-sent] *)
| PReturned.       (* returned; [wg.Done] has run *)

Record HState := {
  parent : ParentPc;
  worker : WorkerPc;
  hhead : Header;                    (* [*req.head] *)
  written : list (Header * Body)     (* the responses written, in order *)
}.

Inductive HLabel :=
| HMethodReturns (err : error) (reply : Body)  (* [Service.Call] returns *)
| HCalled          (* rendezvous on [called] *)
| HTimer           (* [time.After(timeout)] fires and is selected *)
| HTimeoutSend     (* the parent's [sendResponse] *)
| HWorkerSend      (* the worker's [sendResponse] *)
| HSent.           (* rendezvous on [sent] *)

Section WithGoLib.
Context `{GoLib}.

Definition timeout_message (timeout : Z) : string :=
  "rpc server: request handle timeout: expect within "
    +:+ DurationString timeout.

(** The state when [handleRequest] has started its worker and tested
    [timeout == 0]. *)
Definition handleRequest_init (h : Header) (timeout : Z) : HState :=
  {| parent := if timeout =? 0 then PRecvCalled else PSelect;
     worker := WCall; hhead := h; written := [] |}.

Definition handleRequest_step (timeout : Z) (l : HLabel) (st : HState)
  : option HState :=
  match l, parent st, worker st with
  | HMethodReturns err reply, p, WCall =>
      Some {| parent := p; worker := WSendCalled err reply;
              hhead := hhead st; written := written st |}
  | HCalled, PRecvCalled, WSendCalled err reply
  | HCalled, PSelect, WSendCalled err reply =>
      Some {| parent := PRecvSent; worker := WRespond err reply;
              hhead := hhead st; written := written st |}
  | HTimer, PSelect, w =>
      Some {| parent := PTimedOut; worker := w;
              hhead := with_Error (hhead st) (timeout_message timeout);
              written := written st |}
  | HTimeoutSend, PTimedOut, w =>
      Some {| parent := PReturned; worker := w; hhead := hhead st;
              written := written st ++ [(hhead st, invalidRequest)] |}
  | HWorkerSend, p, WRespond (Some e) _ =>
      let h := with_Error (hhead st) e in
      Some {| parent := p; worker := WSendSent; hhead := h;
              written := written st ++ [(h, invalidRequest)] |}
  | HWorkerSend, p, WRespond None reply =>
      Some {| parent := p; worker := WSendSent; hhead := hhead st;
              written := written st ++ [(hhead st, reply)] |}
  | HSent, PRecvSent, WSendSent =>
      Some {| parent := PReturned; worker := WDone; hhead := hhead st;
              written := written st |}
  | _, _, _ => None
  end.

(** The response the worker writes for the result [(err, reply)] of the
    method, the header being [h] before. *)
Definition worker_response (h : Header) (err : error) (reply : Body)
  : Header * Body :=
  match err with
  | Some e => (with_Error h e, invalidRequest)
  | None => (h, reply)
  end.

(** The response of the timer branch. *)
Definition timeout_response (h : Header) (timeout : Z) : Header * Body :=
  (with_Error h (timeout_message timeout), invalidRequest).

(** The run in which the parent receives from [called] and then from
    [sent]. *)
Definition awaited_run (err : error) (reply : Body) : list HLabel :=
  [HMethodReturns err reply; HCalled; HWorkerSend; HSent].

Fixpoint handleRequest_run (timeout : Z) (ls : list HLabel) (st : HState)
  : option HState :=
  match ls with
  | [] => Some st
  | l :: ls' =>
      match handleRequest_step timeout l st with
      | Some st' => handleRequest_run timeout ls' st'
      | None => None
      end
  end.

End WithGoLib.

(** ** [ServeConn] *)

(** [ServeConn]. [decoded] is what [json.NewDecoder(conn).Decode(&opt)]
    gives, the option or the error; [conn] is the connection after the
    option document. The deferred [conn.Close] runs on every return. *)
Definition ServeConn (fuel : nat) (s : Server)
    (decoded : common.Option + string) (conn : FrameCode)
  : ServeResult FrameCode :=
  match decoded with
  | inr _ => Served (Close conn) []
  | inl opt =>
      if negb (common.OptMagicNumber opt =? common.MagicNumber)
      then Served (Close conn) []
      else
        match NewCodeFuncMap !! common.CodeType opt with
        | None => Served (Close conn) []
        | Some NewGobCode =>
            match serveCode fuel s conn opt with
            | Served cc handlers => Served (Close cc) handlers
            | r => r
            end
        end
  end.

(** The frames of a sequence of messages, as [Write] lays them out. *)
Definition frames_of (msgs : list (Header * Body)) : list Frame :=
  flat_map (fun hb : Header * Body => [FHeader hb.1; FBody hb.2]) msgs.

(** The request [readRequest] builds from a header whose method is found
    and a body that decodes into the argument of the method, when [NewArgv]
    and [NewReplyv] do not panic. *)
Definition resolved (s : Server) (h : Header) (b : Body) : option request :=
  match findService s (ServiceMethod h) with
  | (svc_, Some mt, None) =>
      match NewArgv mt, NewReplyv mt with
      | Some _, Some rv =>
          if decodes_into b (IndirectType (ArgType mt))
          then Some {| head := h; argv := Some b; replyv := Some rv;
                       mtype := Some mt; svc := svc_ |}
          else None
      | _, _ => None
      end
  | _ => None
  end.

End server.

(** * Package client *)
Module client.
Import xxcode.

(** [*Call] *)
Definition ptr := positive.

(** [Call]. The channel [Done] is not a field here: a send [call.Done <-
    call] is recorded in the log [signals] of the state. [Reply] is what
    the reply destination holds. *)
Record Call := {
  Seq : Z;
  CServiceMethod : string;
  Args : Body;
  Reply : option Body;
  CError : error
}.

(** The fields of [Client] guarded by [mu], and the header scratch. *)
Record Client := {
  seq : Z;
  pending : gmap Z ptr;
  closing : bool;
  shutdown : bool;
  header : Header
}.

(** The client, the heap of calls, and the completion signals sent so
    far. *)
Record State := {
  cl : Client;
  calls : gmap ptr Call;
  signals : list ptr
}.

Definition set_Seq (s : Z) (c : Call) : Call :=
  {| Seq := s; CServiceMethod := CServiceMethod c; Args := Args c;
     Reply := Reply c; CError := CError c |}.

Definition set_Error (e : error) (c : Call) : Call :=
  {| Seq := Seq c; CServiceMethod := CServiceMethod c; Args := Args c;
     Reply := Reply c; CError := e |}.

Definition set_Reply (r : option Body) (c : Call) : Call :=
  {| Seq := Seq c; CServiceMethod := CServiceMethod c; Args := Args c;
     Reply := r; CError := CError c |}.

(** [call.Seq], zero for a pointer that is not allocated. *)
Definition Seq_of (st : State) (call : ptr) : Z :=
  match calls st !! call with Some c => Seq c | None => 0 end.

(** [call.Error = err] *)
Definition assign_Error (call : ptr) (e : error) (st : State) : State :=
  {| cl := cl st; calls := alter (set_Error e) call (calls st);
     signals := signals st |}.

(** [call.done()] *)
Definition done (call : ptr) (st : State) : State :=
  {| cl := cl st; calls := calls st; signals := signals st ++ [call] |}.

(** [newClientCode]: the state of a new client. *)
Definition newClientCode : State :=
  {| cl := {| seq := 1; pending := ∅; closing := false; shutdown := false;
              header := {| ServiceMethod := ""; SeqId := 0; Error := "" |} |};
     calls := ∅;
     signals := [] |}.

(** [Close]: the state after, and the error returned. [ccClose] is what
    [c.cc.Close()] returns. *)
Definition Close (ccClose : error) (st : State) : State * error :=
  if closing (cl st) then (st, Some "connection is closed")
  else ({| cl := {| seq := seq (cl st); pending := pending (cl st);
                    closing := true; shutdown := shutdown (cl st);
                    header := header (cl st) |};
           calls := calls st; signals := signals st |}, ccClose).

Definition IsAvailable (st : State) : bool :=
  negb (shutdown (cl st)) && negb (closing (cl st)).

(** [registerCall] *)
Definition registerCall (call : ptr) (st : State) : State * (Z * error) :=
  let c := cl st in
  if closing c || shutdown c then (st, (0, Some "connection is closed"))
  else
    let s := seq c in
    ({| cl := {| seq := wrap64 (s + 1);
                 pending := <[s := call]> (pending c);
                 closing := closing c; shutdown := shutdown c;
                 header := header c |};
        calls := alter (set_Seq s) call (calls st);
        signals := signals st |},
     (s, None)).

(** [removeCall] *)
Definition removeCall (s : Z) (st : State) : State * option ptr :=
  let c := cl st in
  ({| cl := {| seq := seq c; pending := delete s (pending c);
               closing := closing c; shutdown := shutdown c;
               header := header c |};
      calls := calls st; signals := signals st |},
   pending c !! s).

(** [terminateCalls]: the loop [for _, call := range c.pending] runs over
    the entries of the map in the order [map_to_list] gives. *)
Definition terminateCalls (err : error) (st : State) : State :=
  let c := cl st in
  let st1 := {| cl := {| seq := seq c; pending := pending c;
                         closing := closing c; shutdown := true;
                         header := header c |};
                calls := calls st; signals := signals st |} in
  foldl (fun acc kv => done kv.2 (assign_Error kv.2 err acc))
        st1 (map_to_list (pending c)).

Section Receive.
Context `{GoLib}.

(** One iteration of the loop of [receive] after a header was read:
    [body] and [berr] are what [ReadBody] decodes and returns. The result
    is the state and the [err] the loop tests next. The header error is the
    format of [fmt.Errorf]. *)
Definition receive_iter (h : Header) (body : option Body) (berr : error)
    (st : State) : State * error :=
  let '(st1, call) := removeCall (SeqId h) st in
  match call with
  | None => (st1, berr)
  | Some p =>
      if negb (String.eqb (Error h) "") then
        (done p (assign_Error p (Some (Errorf (Error h))) st1), berr)
      else
        let st2 :=
          {| cl := cl st1;
             calls := alter (set_Reply body) p (calls st1);
             signals := signals st1 |} in
        match berr with
        | Some e => (done p (assign_Error p (Some ("reading body " +:+ e)) st2),
                     berr)
        | None => (done p st2, berr)
        end
  end.

End Receive.

(** [send], first half: [registerCall], then either the failure path or
    the header scratch. The result is the sequence id when the call was
    registered. *)
Definition send_register (call : ptr) (st : State) : State * option Z :=
  let '(st1, (seqId, err)) := registerCall call st in
  match err with
  | Some e => (done call (assign_Error call (Some e) st1), None)
  | None =>
      let c := cl st1 in
      let sm := match calls st1 !! call with
                | Some k => CServiceMethod k | None => "" end in
      ({| cl := {| seq := seq c; pending := pending c;
                   closing := closing c; shutdown := shutdown c;
                   header := {| ServiceMethod := sm; SeqId := seqId;
                                Error := "" |} |};
          calls := calls st1; signals := signals st1 |},
       Some seqId)
  end.

(** [send], second half: what follows [c.cc.Write], which returned
    [werr]. *)
Definition send_written (seqId : Z) (werr : error) (st : State) : State :=
  match werr with
  | None => st
  | Some e =>
      let '(st1, call) := removeCall seqId st in
      match call with
      | Some p => done p (assign_Error p (Some e) st1)
      | None => st1
      end
  end.

(** [send] when nothing else touches the client in between. *)
Definition send (call : ptr) (werr : error) (st : State) : State :=
  match send_register call st with
  | (st1, None) => st1
  | (st1, Some seqId) => send_written seqId werr st1
  end.

(** The allocation [&Call{...}] in [Go], at a fresh address. *)
Definition new_Call (call : ptr) (serviceMethod : string) (args : Body)
    (st : State) : State :=
  {| cl := cl st;
     calls := <[call := {| Seq := 0; CServiceMethod := serviceMethod;
                           Args := args; Reply := None; CError := None |}]>
                (calls st);
     signals := signals st |}.

(** [Go], with a buffered [done] channel. *)
Definition Go (call : ptr) (serviceMethod : string) (args : Body)
    (werr : error) (st : State) : State :=
  send call werr (new_Call call serviceMethod args st).


(** ** Establishing the connection *)

(** [parseOptions(opts ...*common.Option)]; a [nil] pointer is [None]. *)
Definition parseOptions (opts : list (option common.Option))
  : option common.Option * error :=
  match opts with
  | [] | None :: _ => (Some common.DefaultOption, None)
  | Some opt :: rest =>
      if negb (length opts =? 1)%nat
      then (None, Some "number of options is more than 1")
      else
        (Some {| common.OptMagicNumber :=
                   common.OptMagicNumber common.DefaultOption;
                 common.CodeType :=
                   if String.eqb (common.CodeType opt) ""
                   then common.CodeType common.DefaultOption
                   else common.CodeType opt;
                 common.ConnectTimeout := common.ConnectTimeout opt;
                 common.HandleTimeout := common.HandleTimeout opt |},
         None)
  end.

(** [clientResult] *)
Record clientResult := {
  client_ : option State;
  err_ : error
}.

(** What [dialTimeout] meets: the error of [net.DialTimeout]; when the
    factory [f] returns, counted in nanoseconds from its start, and with
    what ([None]: it never returns); and which case a [select] takes when
    the timer and the channel are ready at the same instant. *)
Record DialEnv := {
  dialErr : error;
  handshake : option (Z * clientResult);
  timerFirst : bool
}.

(** [NewClient]. [encodeErr] is what writing the option document to the
    connection returns. The result is the pair [(client, err)] and whether
    [NewClient] itself closed the connection. *)
Definition NewClient (encodeErr : error) (opt : common.Option)
  : clientResult * bool :=
  match NewCodeFuncMap !! common.CodeType opt with
  | None =>
      ({| client_ := None;
          err_ := Some ("invalid codec type " +:+ common.CodeType opt) |},
       false)
  | Some NewGobCode =>
      match encodeErr with
      | Some e => ({| client_ := None; err_ := Some e |}, true)
      | None => ({| client_ := Some newClientCode; err_ := None |}, false)
      end
  end.

(** What [dialTimeout] has done with the connection: made none; made one
    and not closed it ([ConnOpen]: the connection is as the factory left
    it); or closed it through its deferred function. *)
Inductive Conn := NoConn | ConnOpen | ConnClosed.

(** [dialTimeout] returns [(client, err)] after [elapsed] nanoseconds, or
    blocks for ever. *)
Inductive DialResult :=
| DialReturns (client : option State) (err : error) (conn : Conn) (elapsed : Z)
| DialBlocks.

(** The deferred function: close the connection if [err != nil]. *)
Definition deferred_close (err : error) : Conn :=
  if is_nil err then ConnOpen else ConnClosed.

(** The timer of [time.After(d)] fires [d] nanoseconds after it is set, at
    once when [d] is negative. *)
Definition timer_at (d : Z) : Z := Z.max 0 d.

(** Whether the [select] takes the timer case, the channel being ready at
    [t]. *)
Definition timer_selected (d t : Z) (tie : bool) : bool :=
  if timer_at d <? t then true
  else if t <? timer_at d then false
  else tie.

Section WithGoLib.
Context `{GoLib}.

Definition connect_timeout_message (d : Z) : string :=
  "rpc client: connect timeout: expect within " +:+ DurationString d.

Definition dialTimeout (env : DialEnv) (opts : list (option common.Option))
  : DialResult :=
  match parseOptions opts with
  | (_, Some err) => DialReturns None (Some err) NoConn 0
  | (None, None) => DialReturns None None NoConn 0
  | (Some opt, None) =>
      match dialErr env with
      | Some err => DialReturns None (Some err) NoConn 0
      | None =>
          let d := common.ConnectTimeout opt in
          let timed_out :=
            let err := Some (connect_timeout_message d) in
            DialReturns None err (deferred_close err) (timer_at d) in
          if d =? 0 then
            match handshake env with
            | None => DialBlocks
            | Some (t, result) =>
                DialReturns (client_ result) (err_ result)
                            (deferred_close (err_ result)) t
            end
          else
            match handshake env with
            | None => timed_out
            | Some (t, result) =>
                if timer_selected d t (timerFirst env) then timed_out
                else DialReturns (client_ result) (err_ result)
                                 (deferred_close (err_ result)) t
            end
      end
  end.

End WithGoLib.

(** ** The client as a transition system

    The goroutines of a client (the callers in [Go] and [Call], the reader
    [receive], the user calling [Close]) interleave at the granularity of
    the critical sections of [mu] and [sending]. What the codec returns,
    and which branch a [select] takes, is given by the label of the step. *)

(** How a registered call ends. *)
Inductive Outcome :=
| ReaderSuccess    (* completed by the reader, reply decoded *)
| ReaderError      (* completed by the reader with an error *)
| Terminated       (* completed by [terminateCalls] *)
| SendFailed       (* completed by [send] after a failed [Write] *)
| Cancelled.       (* removed by the cancellation branch of [Call] *)

(** The reader goroutine: in its loop, out of it with [err] and about to
    run [terminateCalls], or finished. *)
Inductive ReaderState :=
| Running
| Exiting (err : error)
| Dead.

(** The caller of one call: inside [send] (holding [sending], [Write] in
    progress), waiting in the [select] of [Call] (or on [Done]), returned
    with the completion, or returned through the cancellation branch. *)
Inductive Thread :=
| InSend
| Awaiting
| Returned
| GaveUp.

Record World := {
  st : State;
  sending : option (ptr * Z);   (* who holds [sending] in [send], and its [seqId] *)
  reader : ReaderState;
  thr : gmap ptr Thread;
  (* history, for the statements only *)
  outcomes : list (ptr * Outcome);
  assigned : list Z;            (* the ids [registerCall] has given, in order *)
  received : list ptr           (* completions taken from [Done] by awaiters *)
}.

Definition init : World :=
  {| st := newClientCode; sending := None; reader := Running; thr := ∅;
     outcomes := []; assigned := []; received := [] |}.

Inductive Label :=
| LGo (call : ptr) (serviceMethod : string) (args : Body)
    (* [Go] up to the call of [Write] (or to its return, when
       [registerCall] fails) *)
| LWritten (werr : error)
    (* [Write] returns [werr]; [send] finishes *)
| LReadHeaderFails (e : string)
    (* [ReadHeader] fails in [receive] *)
| LReceive (h : Header) (body : option Body) (berr : error)
    (* one iteration of [receive] *)
| LTerminate
    (* [terminateCalls] *)
| LCancel (call : ptr)
    (* [<-ctx.Done()] is selected in [Call] *)
| LAwait (call : ptr)
    (* the completion is taken from [call.Done] *)
| LClose (ccerr : error).
    (* [Close] *)

Definition count (p : ptr) (l : list ptr) : nat := count_occ Pos.eq_dec l p.

Definition receive_outcome (h : Header) (berr : error) : Outcome :=
  if negb (String.eqb (Error h) "") then ReaderError
  else if is_nil berr then ReaderSuccess else ReaderError.

Definition note (q : option ptr) (o : Outcome) : list (ptr * Outcome) :=
  match q with Some p => [(p, o)] | None => [] end.

Section Steps.
Context `{GoLib}.

Definition step (l : Label) (w : World) : option World :=
  match l with
  | LGo p sm args =>
      match calls (st w) !! p, sending w with
      | None, None =>
          match send_register p (new_Call p sm args (st w)) with
          | (st1, None) =>
              Some {| st := st1; sending := None; reader := reader w;
                      thr := <[p := Awaiting]> (thr w);
                      outcomes := outcomes w; assigned := assigned w;
                      received := received w |}
          | (st1, Some seqId) =>
              Some {| st := st1; sending := Some (p, seqId);
                      reader := reader w;
                      thr := <[p := InSend]> (thr w);
                      outcomes := outcomes w;
                      assigned := assigned w ++ [seqId];
                      received := received w |}
          end
      | _, _ => None
      end
  | LWritten werr =>
      match sending w with
      | Some (p, seqId) =>
          Some {| st := send_written seqId werr (st w); sending := None;
                  reader := reader w;
                  thr := <[p := Awaiting]> (thr w);
                  outcomes :=
                    outcomes w ++
                    (if is_nil werr then []
                     else note (pending (cl (st w)) !! seqId) SendFailed);
                  assigned := assigned w; received := received w |}
      | None => None
      end
  | LReadHeaderFails e =>
      match reader w with
      | Running =>
          Some {| st := st w; sending := sending w;
                  reader := Exiting (Some e); thr := thr w;
                  outcomes := outcomes w; assigned := assigned w;
                  received := received w |}
      | _ => None
      end
  | LReceive h body berr =>
      match reader w with
      | Running =>
          let '(st1, err) := receive_iter h body berr (st w) in
          Some {| st := st1; sending := sending w;
                  reader := if is_nil err then Running else Exiting err;
                  thr := thr w;
                  outcomes :=
                    outcomes w ++
                    note (pending (cl (st w)) !! SeqId h)
                         (receive_outcome h berr);
                  assigned := assigned w; received := received w |}
      | _ => None
      end
  | LTerminate =>
      match reader w, sending w with
      | Exiting err, None =>
          Some {| st := terminateCalls err (st w); sending := None;
                  reader := Dead; thr := thr w;
                  outcomes :=
                    outcomes w ++
                    map (fun kv : Z * ptr => (kv.2, Terminated))
                        (map_to_list (pending (cl (st w))));
                  assigned := assigned w; received := received w |}
      | _, _ => None
      end
  | LCancel p =>
      match thr w !! p with
      | Some Awaiting =>
          let '(st1, q) := removeCall (Seq_of (st w) p) (st w) in
          Some {| st := st1; sending := sending w; reader := reader w;
                  thr := <[p := GaveUp]> (thr w);
                  outcomes := outcomes w ++ note q Cancelled;
                  assigned := assigned w; received := received w |}
      | _ => None
      end
  | LAwait p =>
      match thr w !! p with
      | Some Awaiting =>
          if (count p (received w) <? count p (signals (st w)))%nat then
            Some {| st := st w; sending := sending w; reader := reader w;
                    thr := <[p := Returned]> (thr w);
                    outcomes := outcomes w; assigned := assigned w;
                    received := received w ++ [p] |}
          else None
      | _ => None
      end
  | LClose ccerr =>
      Some {| st := fst (Close ccerr (st w)); sending := sending w;
              reader := reader w; thr := thr w;
              outcomes := outcomes w; assigned := assigned w;
              received := received w |}
  end.

Fixpoint run (ls : list Label) (w : World) : option World :=
  match ls with
  | [] => Some w
  | l :: ls' =>
      match step l w with
      | Some w' => run ls' w'
      | None => None
      end
  end.

(** The states a client can be in. *)
Definition reachable (w : World) : Prop :=
  exists ls, run ls init = Some w.

End Steps.

(** The outcomes recorded for one call, in order. *)
Definition outs (p : ptr) (l : list (ptr * Outcome)) : list Outcome :=
  (filter (fun po : ptr * Outcome => po.1 = p) l).*2.

Definition outcomes_of (p : ptr) (w : World) : list Outcome :=
  outs p (outcomes w).

(** ** Invariants of the transition system *)

(** What the invariants look at in a [State]: the fields under [mu], the
    id of every call of the heap, and the signals. *)
Record View := {
  v_seq : Z;
  v_pending : gmap Z ptr;
  v_closing : bool;
  v_shutdown : bool;
  v_ids : gmap ptr Z;
  v_signals : list ptr
}.

Definition view (s : State) : View :=
  {| v_seq := seq (cl s); v_pending := pending (cl s);
     v_closing := closing (cl s); v_shutdown := shutdown (cl s);
     v_ids := Seq <$> calls s; v_signals := signals s |}.

Definition olist (q : option ptr) : list ptr :=
  match q with Some p => [p] | None => [] end.

(** No outcome, one outcome, or a completion by [terminateCalls] followed
    by the removal of the entry by a cancellation. *)
Definition good_outcomes (l : list Outcome) : Prop :=
  l = [] \/ (exists o, l = [o]) \/ l = [Terminated; Cancelled].

(** The [n] first ids of a client: [1], [2], ... as [uint64]. *)
Definition first_ids (n : nat) : list Z :=
  (fun i : nat => wrap64 (Z.of_nat i)) <$> List.seq 1 n.

(** A client at rest: nothing pending, open, nobody sending, the reader
    in its loop. *)
Definition at_rest (w : World) : Prop :=
  pending (cl (st w)) = ∅ /\ closing (cl (st w)) = false /\
  shutdown (cl (st w)) = false /\ sending w = None /\ reader w = Running.

Record Inv (w : World) : Prop := {
  (* a pending entry is a call of the heap, under its own id, and the id
     is one that [registerCall] gave *)
  inv_pending : forall k p,
    v_pending (view (st w)) !! k = Some p ->
    v_ids (view (st w)) !! p = Some k /\ In k (assigned w);
  (* an address not yet allocated has no history *)
  inv_fresh : forall p,
    v_ids (view (st w)) !! p = None ->
    count p (v_signals (view (st w))) = 0%nat /\ outcomes_of p w = [];
  (* before [terminateCalls], a pending call has no history *)
  inv_live : reader w <> Dead ->
    forall k p, v_pending (view (st w)) !! k = Some p ->
      count p (v_signals (view (st w))) = 0%nat /\ outcomes_of p w = [];
  (* after it, nothing is being sent, the client is shut down, and the
     entries left in the map are the calls it completed *)
  inv_dead : reader w = Dead ->
    sending w = None /\ v_shutdown (view (st w)) = true /\
    forall k p, v_pending (view (st w)) !! k = Some p ->
      count p (v_signals (view (st w))) = 1%nat /\
      outcomes_of p w = [Terminated];
  (* every call *)
  inv_once : forall p,
    (count p (v_signals (view (st w))) <= 1)%nat /\
    (count p (received w) <= count p (v_signals (view (st w))))%nat /\
    good_outcomes (outcomes_of p w);
  (* the ids given so far *)
  inv_seq :
    v_seq (view (st w)) = wrap64 (1 + Z.of_nat (length (assigned w))) /\
    assigned w = first_ids (length (assigned w))
}.

(** What a step does to the history of one call: nothing; or the call's
    entry is removed by a cancellation; or the call is signalled, which
    happens only to a call with no outcome yet, the outcome it gets then
    (if any) being a completion. *)
Definition history_step (w w' : World) (p : ptr) : Prop :=
  exists (c : nat) (o : list Outcome),
    count p (signals (st w')) = (count p (signals (st w)) + c)%nat /\
    outcomes_of p w' = outcomes_of p w ++ o /\
    ((c = 0%nat /\ o = []) \/
     (c = 0%nat /\ o = [Cancelled] /\
      (outcomes_of p w = [] -> count p (signals (st w)) = 0%nat)) \/
     (c = 1%nat /\ outcomes_of p w = [] /\
      (o = [] \/ exists x, o = [x] /\ x <> Cancelled))).

(** ** Where a registered call is *)







End client.

(** * Properties *)

(** ** Strings *)

Lemma append_nil (t : string) : "" +:+ t = t.
Proof. reflexivity. Qed.

Lemma append_cons (a : ascii) (s t : string) :
  String a s +:+ t = String a (s +:+ t).
Proof. reflexivity. Qed.

Lemma prefix_dot (s : string) :
  String.prefix "." s = match s with
                        | String a _ => Ascii.eqb a "."%char
                        | EmptyString => false
                        end.
Proof.
  destruct s as [|a s']; [reflexivity|].
  cbn [String.prefix].
  destruct (Ascii.ascii_dec "."%char a) as [<-|Hne].
  - rewrite Ascii.eqb_refl. destruct s'; reflexivity.
  - symmetry. apply Ascii.eqb_neq. congruence.
Qed.

Lemma LastIndex_from_no_dot (s : string) (i : Z) :
  has_dot s = false -> LastIndex_from s "." i = -1.
Proof.
  revert i.
  induction s as [|a s' IH]; intros i Hs; cbn [LastIndex_from has_dot] in *.
  - reflexivity.
  - apply orb_false_iff in Hs as [Ha Hs'].
    rewrite (IH _ Hs'). cbn [Z.leb Z.compare].
    rewrite (prefix_dot (String a s')), Ha. reflexivity.
Qed.

Lemma LastIndex_from_dot (sn mn : string) (i : Z) :
  has_dot mn = false -> 0 <= i ->
  LastIndex_from (sn +:+ "." +:+ mn) "." i = i + Z.of_nat (String.length sn).
Proof.
  intros Hmn. revert i. induction sn as [|a sn' IH]; intros i Hi.
  - rewrite !append_nil, append_cons, append_nil.
    cbn [String.length LastIndex_from].
    rewrite (LastIndex_from_no_dot mn (i + 1) Hmn).
    cbn [Z.leb Z.compare].
    rewrite (prefix_dot (String "." mn)), Ascii.eqb_refl. cbn. lia.
  - rewrite append_cons. cbn [String.length LastIndex_from].
    rewrite (IH (i + 1)) by lia.
    destruct (0 <=? i + 1 + Z.of_nat (String.length sn')) eqn:E.
    + lia.
    + apply Z.leb_gt in E. lia.
Qed.

Lemma substring_prefix (s t : string) :
  String.substring 0 (String.length s) (s +:+ t) = s.
Proof.
  induction s as [|a s IH].
  - rewrite append_nil. destruct t; reflexivity.
  - rewrite append_cons. cbn [String.length String.substring]. by rewrite IH.
Qed.

Lemma substring_all (t : string) :
  String.substring 0 (String.length t) t = t.
Proof.
  induction t as [|a t IH]; [reflexivity|].
  cbn [String.length String.substring]. by rewrite IH.
Qed.

Lemma substring_suffix (s t : string) (m : nat) :
  String.substring (String.length s) m (s +:+ t) = String.substring 0 m t.
Proof.
  induction s as [|a s IH]; [reflexivity|].
  rewrite append_cons. cbn [String.length String.substring]. apply IH.
Qed.

Lemma length_append (s t : string) :
  String.length (s +:+ t) = (String.length s + String.length t)%nat.
Proof.
  induction s as [|a s IH]; [reflexivity|].
  rewrite append_cons. cbn [String.length]. by rewrite IH.
Qed.

(** Splitting at the last dot gives back the two parts. *)
Lemma split_at_last_dot (sn mn : string) :
  has_dot mn = false ->
  let s := sn +:+ "." +:+ mn in
  LastIndex s "." = Z.of_nat (String.length sn) /\
  slice_to s (LastIndex s ".") = sn /\
  slice_from s (LastIndex s "." + 1) = mn.
Proof.
  intros Hmn s. unfold LastIndex.
  assert (LastIndex_from s "." 0 = Z.of_nat (String.length sn)) as ->.
  { unfold s. rewrite LastIndex_from_dot by (done || lia). lia. }
  split; [done|]. unfold slice_to, slice_from, s.
  rewrite Nat2Z.id.
  split; [apply substring_prefix|].
  replace (Z.to_nat (Z.of_nat (String.length sn) + 1))
    with (String.length (sn +:+ ".")) by (rewrite length_append; simpl; lia).
  replace (sn +:+ "." +:+ mn) with ((sn +:+ ".") +:+ mn)
    by (clear; induction sn as [|a sn IH];
        [reflexivity | rewrite !append_cons; by rewrite IH]).
  rewrite substring_suffix, !length_append.
  replace (String.length sn + String.length "." + String.length mn
           - (String.length sn + String.length "."))%nat
    with (String.length mn) by lia.
  apply substring_all.
Qed.

(** Every identifier either has no dot, or splits at its last dot. *)
Lemma dot_cases (s : string) :
  has_dot s = false \/
  exists sn mn, s = sn +:+ "." +:+ mn /\ has_dot mn = false.
Proof.
  induction s as [|a s IH]; [by left|].
  destruct IH as [Hs | (sn & mn & -> & Hmn)].
  - destruct (Ascii.eqb a "."%char) eqn:E.
    + right. apply Ascii.eqb_eq in E as ->. by exists "", s.
    + left. cbn [has_dot]. by rewrite E, Hs.
  - right. by exists (String a sn), mn.
Qed.

(** ** The service registry *)

Section RegistryProps.
Context `{GoLib}.
Import reflect service server.

Lemma RegisterMethods_body_eq acc m :
  RegisterMethods_body acc m =
  if accepted m then <[MName m := entry m]> acc else acc.
Proof.
  unfold RegisterMethods_body, accepted, entry.
  destruct (NumIn m =? 3), (NumOut m =? 1); try reflexivity.
  cbn [negb orb andb].
  destruct (bool_decide (Out_ m 0 = errorType)); try reflexivity.
  cbn [negb orb andb].
  destruct (isExportedOrBuiltinType (In_ m 1)),
           (isExportedOrBuiltinType (In_ m 2)); reflexivity.
Qed.

(** What the method map holds: the entries of accepted methods only. *)
Lemma RegisterMethods_sound ms n mt :
  RegisterMethods ms !! n = Some mt ->
  exists m, m ∈ ms /\ MName m = n /\ accepted m = true /\ mt = entry m.
Proof.
  unfold RegisterMethods. induction ms as [|m ms IH] using rev_ind.
  - cbn. by rewrite lookup_empty.
  - rewrite foldl_app. cbn [foldl]. rewrite RegisterMethods_body_eq.
    destruct (accepted m) eqn:Hm.
    + destruct (decide (MName m = n)) as [<-|Hne].
      * rewrite lookup_insert_eq. intros [= <-].
        exists m. split_and!; try done.
        apply elem_of_app. right. by apply list_elem_of_singleton.
      * rewrite lookup_insert_ne by done. intros Hl.
        destruct (IH Hl) as (m' & ? & ? & ? & ?).
        exists m'. split_and!; try done. apply elem_of_app. by left.
    + intros Hl. destruct (IH Hl) as (m' & ? & ? & ? & ?).
      exists m'. split_and!; try done. apply elem_of_app. by left.
Qed.

(** Every accepted method is in the map under its name; a method that
    fails a test is not, unless another method has its name. *)
Lemma RegisterMethods_complete ms m :
  NoDup (MName <$> ms) -> m ∈ ms ->
  RegisterMethods ms !! MName m =
  if accepted m then Some (entry m) else None.
Proof.
  intros Hnd Hin.
  destruct (RegisterMethods ms !! MName m) as [mt|] eqn:Hl.
  - apply RegisterMethods_sound in Hl as (m' & Hin' & Hname & Hacc & ->).
    assert (m' = m) as ->.
    { apply list_elem_of_lookup in Hin as [i Hi].
      apply list_elem_of_lookup in Hin' as [j Hj].
      assert (i = j) as ->; [|congruence].
      eapply NoDup_lookup; [exact Hnd| |];
        rewrite list_lookup_fmap; [by rewrite Hi | rewrite Hj; cbn; by rewrite Hname]. }
    by rewrite Hacc.
  - destruct (accepted m) eqn:Hacc; [|done]. exfalso.
    revert Hl. unfold RegisterMethods. clear Hnd.
    induction ms as [|m' ms IH] using rev_ind; [by apply elem_of_nil in Hin|].
    rewrite foldl_app. cbn [foldl]. rewrite RegisterMethods_body_eq.
    apply elem_of_app in Hin as [Hin|Hin%list_elem_of_singleton].
    + destruct (accepted m'); [|by auto].
      destruct (decide (MName m' = MName m)) as [->|Hne].
      * by rewrite lookup_insert_eq.
      * rewrite lookup_insert_ne by done. by auto.
    + subst m'. by rewrite Hacc, lookup_insert_eq.
Qed.

End RegistryProps.

(** C1. [RegisterMethods] does not test the kind of the reply type: the
    method [func (t T) Sum(arg int, reply int) error], whose reply is not a
    pointer, is stored in the method map, whatever [IsExported] is; and
    [NewReplyv] panics on the stored entry. *)
Theorem RegisterMethods_keeps_value_reply `{GoLib} :
  let T := reflect.Defined "main" "T" reflect.StructLit in
  let Sum := {| reflect.MName := "Sum";
                reflect.In := [T; reflect.intType; reflect.intType];
                reflect.Out := [reflect.errorType] |} in
  exists mt,
    service.RegisterMethods [Sum] !! "Sum" = Some mt /\
    service.ReplyType mt = reflect.intType /\
    reflect.kind (service.ReplyType mt) <> reflect.Ptr /\
    service.NewReplyv mt = None.
Proof.
  intros T Sum. exists (service.entry Sum).
  split; [|by repeat split].
  unfold service.RegisterMethods. cbn [foldl].
  rewrite RegisterMethods_body_eq.
  assert (service.accepted Sum = true) as ->; [|by rewrite lookup_insert_eq].
  unfold service.accepted, service.isExportedOrBuiltinType.
  cbn. by rewrite !orb_true_r.
Qed.

(** C8. Registering a receiver whose service name is already in the
    registry returns the error "rpc: service already defined: <name>" and
    the registry is the same, the stored service included; under a name that
    is not there, the service is stored and no error is returned. *)
Theorem Register_duplicate_or_fresh `{GoLib}
    (s : server.Server) (rcvr : reflect.Receiver) (svc : service.Service) :
  service.NewService rcvr = inl svc ->
  (forall old, server.serviceMap s !! service.SName svc = Some old ->
     server.Register s rcvr =
       inl (s, Some ("rpc: service already defined: " +:+ service.SName svc)))
  /\
  (server.serviceMap s !! service.SName svc = None ->
     server.Register s rcvr =
       inl ({| server.serviceMap :=
                 <[service.SName svc := svc]> (server.serviceMap s) |}, None)).
Proof.
  intros Hnew. unfold server.Register, server.LoadOrStore. rewrite Hnew.
  split.
  - intros old ->. by destruct s.
  - by intros ->.
Qed.

Lemma Register_duplicate_or_fresh_witness :
  let Foo := reflect.Defined "main" "Foo" reflect.StructLit in
  let rcvr := {| reflect.rType := reflect.PtrTo Foo; reflect.rMethods := [] |} in
  let svc := {| service.SName := "Foo"; service.Typ := reflect.PtrTo Foo;
                service.Rcvr := rcvr; service.Method := ∅ |} in
  let s := {| server.serviceMap := {[ "Foo" := svc ]} |} in
  @service.NewService ascii_lib rcvr = inl svc /\
  @server.Register ascii_lib s rcvr =
    inl (s, Some "rpc: service already defined: Foo") /\
  @server.Register ascii_lib server.NewServer rcvr = inl (s, None).
Proof.
  intros Foo rcvr svc s.
  pose proof (@Register_duplicate_or_fresh ascii_lib s rcvr svc eq_refl) as [Hdup _].
  pose proof (@Register_duplicate_or_fresh ascii_lib server.NewServer rcvr svc eq_refl)
    as [_ Hnew].
  split; [reflexivity|]. split.
  - apply (Hdup svc). reflexivity.
  - apply Hnew. reflexivity.
Defined.

(** C9. [findService] splits the identifier at its last dot. Without a dot
    it fails with the ill-formed error. With the identifier [sn.mn], [mn]
    holding no dot: a service name [sn] that is not in the registry gives the
    can't-find-service error, a method name [mn] that is not in the method
    map of the service gives the can't-find-method error, and otherwise the
    service and the method type are returned with no error. *)
Theorem findService_cases (s : server.Server) (serviceMethod : string) :
  (has_dot serviceMethod = false ->
     server.findService s serviceMethod =
       (None, None,
        Some ("rpc server: service/method request ill-formed: " +:+ serviceMethod)))
  /\
  (forall sn mn,
     serviceMethod = sn +:+ "." +:+ mn -> has_dot mn = false ->
     server.findService s serviceMethod =
       match server.serviceMap s !! sn with
       | None => (None, None, Some ("rpc server: can't find service " +:+ sn))
       | Some svc =>
           match service.Method svc !! mn with
           | None => (Some svc, None, Some ("rpc server: can't find method " +:+ mn))
           | Some mtype => (Some svc, Some mtype, None)
           end
       end).
Proof.
  split.
  - intros Hno. unfold server.findService, LastIndex.
    by rewrite LastIndex_from_no_dot.
  - intros sn mn -> Hmn. unfold server.findService.
    destruct (split_at_last_dot sn mn Hmn) as (Hidx & Hsn & Hmn').
    cbv zeta in Hidx, Hsn, Hmn'. rewrite Hsn, Hmn', Hidx.
    assert ((Z.of_nat (String.length sn) <? 0) = false) as -> by lia.
    reflexivity.
Qed.

Lemma findService_cases_witness :
  let Foo := reflect.Defined "main" "Foo" reflect.StructLit in
  let Sum := {| reflect.MName := "Sum";
                reflect.In := [reflect.PtrTo Foo; reflect.intType;
                               reflect.PtrTo reflect.intType];
                reflect.Out := [reflect.errorType] |} in
  let rcvr := {| reflect.rType := reflect.PtrTo Foo; reflect.rMethods := [Sum] |} in
  let mt := @service.entry Sum in
  let svc := {| service.SName := "Foo"; service.Typ := reflect.PtrTo Foo;
                service.Rcvr := rcvr; service.Method := {[ "Sum" := mt ]} |} in
  let s := {| server.serviceMap := {[ "Foo" := svc ]} |} in
  server.findService s "FooSum" =
    (None, None, Some "rpc server: service/method request ill-formed: FooSum") /\
  server.findService s "Foo.Sum" = (Some svc, Some mt, None) /\
  server.findService s "Foo.Bar" =
    (Some svc, None, Some "rpc server: can't find method Bar") /\
  server.findService s "a.b.Sum" =
    (None, None, Some "rpc server: can't find service a.b").
Proof.
  intros Foo Sum rcvr mt svc s. split_and!.
  - apply (proj1 (findService_cases s "FooSum")). reflexivity.
  - apply (proj2 (findService_cases s "Foo.Sum") "Foo" "Sum"); reflexivity.
  - apply (proj2 (findService_cases s "Foo.Bar") "Foo" "Bar"); reflexivity.
  - apply (proj2 (findService_cases s "a.b.Sum") "a.b" "Sum"); reflexivity.
Defined.

(** ** The read loop of the server *)

Section ServeProps.
Import xxcode server.
Context {C : Type} `{Code C}.

(** When the service or the method is not found, [readRequest] has read
    the header and nothing else: the codec is the one [ReadHeader] left. *)
Lemma readRequest_unresolved (s : Server) (cc cc1 : C) h svc_ mt e :
  ReadHeader cc = (cc1, inl h) ->
  findService s (ServiceMethod h) = (svc_, mt, Some e) ->
  readRequest s cc =
    Some (cc1, (Some {| head := h; argv := None; replyv := None;
                        mtype := mt; svc := svc_ |}, Some e)).
Proof.
  intros Hh Hf. unfold readRequest, readRequestHeader. by rewrite Hh, Hf.
Qed.

(** [serveCode] then writes the response with the error in the header and
    the placeholder body, and goes on reading. *)
Lemma serveCode_loop_unresolved (s : Server) (cc cc1 : C) h svc_ mt e
    fuel timeout handlers :
  ReadHeader cc = (cc1, inl h) ->
  findService s (ServiceMethod h) = (svc_, mt, Some e) ->
  serveCode_loop (S fuel) s cc timeout handlers =
    serveCode_loop fuel s
      (sendResponse cc1 (with_Error h e) invalidRequest) timeout handlers.
Proof.
  intros Hh Hf. cbn [serveCode_loop].
  by rewrite (readRequest_unresolved _ _ _ _ _ _ _ Hh Hf).
Qed.

End ServeProps.

Import (hints) xxcode.

(** On a stream of frames every iteration of the loop takes a frame, so the
    loop ends. *)
Lemma readRequest_frames (s : server.Server) (cc cc1 : xxcode.FrameCode) r e :
  server.readRequest s cc = Some (cc1, (Some r, e)) ->
  (length (xxcode.incoming cc1) < length (xxcode.incoming cc))%nat.
Proof.
  unfold server.readRequest, server.readRequestHeader.
  cbn [xxcode.ReadHeader xxcode.ReadBody xxcode.FrameCode_Code].
  unfold xxcode.frame_ReadHeader.
  destruct (xxcode.incoming cc) as [|[h|b] rest] eqn:Hin; [done| |done].
  destruct (server.findService s (xxcode.ServiceMethod h)) as [[sv mt] [e'|]].
  { intros [= <- _ _]. cbn. lia. }
  destruct mt as [mt|]; [|done].
  destruct (service.NewArgv mt), (service.NewReplyv mt); try done.
  unfold xxcode.frame_ReadBody. cbn [xxcode.incoming].
  destruct rest as [|[h'|b'] rest']; [intros [= <- _ _]; cbn; lia | |].
  - intros [= <- _ _]. cbn. lia.
  - destruct (xxcode.decodes_into b' _); intros [= <- _ _]; cbn; lia.
Qed.

Lemma serveCode_loop_terminates (s : server.Server) timeout :
  forall fuel (cc : xxcode.FrameCode) handlers,
    (length (xxcode.incoming cc) < fuel)%nat ->
    server.serveCode_loop fuel s cc timeout handlers <> server.OutOfFuel.
Proof.
  induction fuel as [|fuel IH]; intros cc handlers Hlen; [lia|].
  cbn [server.serveCode_loop].
  destruct (server.readRequest s cc) as [[cc1 [[r|] [e|]]]|] eqn:Hr; try done.
  - apply IH. apply readRequest_frames in Hr.
    unfold server.sendResponse.
    cbn [xxcode.Write xxcode.FrameCode_Code]. unfold xxcode.frame_Write.
    destruct (xxcode.closed cc1); cbn; lia.
  - apply IH. apply readRequest_frames in Hr. lia.
Qed.

(** C2. A request for a service that is not registered, followed by its
    body and by a second request. [readRequest] returns the error with the
    body frame still first in the stream; [serveCode] writes the error
    response with the placeholder body and reads on, takes that body frame
    for a header, and leaves the loop: the connection is closed and the
    second request is never read. *)
Theorem serveCode_unresolved_keeps_body :
  let h1 := {| xxcode.ServiceMethod := "Foo.Sum"; xxcode.SeqId := 1;
               xxcode.Error := "" |} in
  let h2 := {| xxcode.ServiceMethod := "Foo.Sum"; xxcode.SeqId := 2;
               xxcode.Error := "" |} in
  let later := [xxcode.FBody (xxcode.VInt 7); xxcode.FHeader h2;
                xxcode.FBody (xxcode.VInt 8)] in
  let cc := {| xxcode.incoming := xxcode.FHeader h1 :: later;
               xxcode.outgoing := []; xxcode.closed := false |} in
  let e := "rpc server: can't find service Foo" in
  server.readRequest server.NewServer cc =
    Some ({| xxcode.incoming := later; xxcode.outgoing := [];
             xxcode.closed := false |},
          (Some {| server.head := h1; server.argv := None;
                   server.replyv := None; server.mtype := None;
                   server.svc := None |}, Some e))
  /\
  server.serveCode 4 server.NewServer cc common.DefaultOption =
    server.Served
      {| xxcode.incoming := [xxcode.FHeader h2; xxcode.FBody (xxcode.VInt 8)];
         xxcode.outgoing := [xxcode.FHeader (server.with_Error h1 e);
                             xxcode.FBody server.invalidRequest];
         xxcode.closed := true |} [].
Proof. split; reflexivity. Qed.

(** ** [handleRequest] *)

Section HandleProps.
Context `{GoLib}.
Import xxcode server.

(** Symbolic execution of a run, label by label. *)
Ltac explore Hrun :=
  repeat match type of Hrun with
         | handleRequest_run _ ?ls _ = Some _ =>
             is_var ls; destruct ls as [|[] ls];
             cbn [handleRequest_run handleRequest_step parent worker
                  hhead written handleRequest_init] in Hrun;
             try discriminate Hrun
         | context [match ?e with _ => _ end] =>
             is_var e; destruct e;
             cbn [handleRequest_run handleRequest_step parent worker
                  hhead written handleRequest_init] in Hrun;
             try discriminate Hrun
         end.

Lemma handleRequest_no_timeout (h : Header) ls st :
  handleRequest_run 0 ls (handleRequest_init h 0) = Some st ->
  ~ In HTimer ls /\ parent st <> PTimedOut /\
  (parent st = PReturned ->
   exists err reply,
     ls = awaited_run err reply /\ worker st = WDone /\
     written st = [worker_response h err reply]).
Proof.
  intros Hrun. change (0 =? 0) with true in Hrun.
  unfold handleRequest_init in Hrun. cbn [Z.eqb] in Hrun.
  explore Hrun; injection Hrun as <-; cbn;
    (split_and!; [intuition discriminate | discriminate | ]);
    try discriminate; intros _; eauto.
Qed.

Lemma handleRequest_with_timeout (h : Header) (timeout : Z) ls st :
  timeout <> 0 ->
  handleRequest_run timeout ls (handleRequest_init h timeout) = Some st ->
  parent st = PReturned ->
  (In HTimer ls /\
   written st = [timeout_response h timeout] /\
   worker st <> WDone /\
   (forall err reply, ls <> awaited_run err reply))
  \/
  (~ In HTimer ls /\
   exists err reply,
     ls = awaited_run err reply /\ worker st = WDone /\
     written st = [worker_response h err reply]).
Proof.
  intros Hne Hrun. unfold handleRequest_init in Hrun.
  apply Z.eqb_neq in Hne. rewrite Hne in Hrun.
  explore Hrun; injection Hrun as <-; cbn; try discriminate; intros _;
    first [ left; split_and!;
            [ tauto | reflexivity | discriminate
            | unfold awaited_run; congruence ]
          | right; split; [intuition discriminate | eauto] ].
Qed.

End HandleProps.

(** C4. [handleRequest], for every run of the parent and its worker from the
    start. With a zero timeout the timer never fires, and the parent returns
    only after it has received from [called] and then from [sent], the
    worker's response being the one written. With a nonzero timeout the
    parent returns either through the timer, having written one response
    whose header error is "rpc server: request handle timeout: expect within
    <d>" with the placeholder body, the worker not being awaited (it has not
    finished); or after [called] and then [sent]. Both ways of returning
    exist. *)
Theorem handleRequest_timeout_cases `{GoLib}
    (h : xxcode.Header) (timeout : Z) :
  (forall ls st,
     server.handleRequest_run timeout ls (server.handleRequest_init h timeout)
       = Some st ->
     (timeout = 0 ->
        ~ In server.HTimer ls /\ server.parent st <> server.PTimedOut /\
        (server.parent st = server.PReturned ->
         exists err reply,
           ls = server.awaited_run err reply /\
           server.worker st = server.WDone /\
           server.written st = [server.worker_response h err reply]))
     /\
     (timeout <> 0 -> server.parent st = server.PReturned ->
        (In server.HTimer ls /\
         server.written st =
           [({| xxcode.ServiceMethod := xxcode.ServiceMethod h;
                xxcode.SeqId := xxcode.SeqId h;
                xxcode.Error :=
                  "rpc server: request handle timeout: expect within "
                    +:+ DurationString timeout |},
             xxcode.VInvalidRequest)] /\
         server.worker st <> server.WDone /\
         (forall err reply, ls <> server.awaited_run err reply))
        \/
        (~ In server.HTimer ls /\
         exists err reply,
           ls = server.awaited_run err reply /\
           server.worker st = server.WDone /\
           server.written st = [server.worker_response h err reply])))
  /\
  (forall err reply,
     exists st,
       server.handleRequest_run timeout (server.awaited_run err reply)
         (server.handleRequest_init h timeout) = Some st /\
       server.parent st = server.PReturned)
  /\
  (timeout <> 0 ->
     exists st,
       server.handleRequest_run timeout [server.HTimer; server.HTimeoutSend]
         (server.handleRequest_init h timeout) = Some st /\
       server.parent st = server.PReturned).
Proof.
  split_and!.
  - intros ls st Hrun. split.
    + intros ->. by apply handleRequest_no_timeout.
    + intros Hne Hret. by apply handleRequest_with_timeout.
  - intros err reply. unfold server.handleRequest_init.
    destruct (timeout =? 0), err; cbn; eauto.
  - intros Hne%Z.eqb_neq. unfold server.handleRequest_init. rewrite Hne.
    cbn. eauto.
Qed.

Lemma handleRequest_timeout_cases_witness :
  let h := {| xxcode.ServiceMethod := "Bar.Timeout"; xxcode.SeqId := 1;
              xxcode.Error := "" |} in
  let ls := [server.HMethodReturns None (xxcode.VInt 0); server.HTimer;
             server.HTimeoutSend] in
  exists st,
    @server.handleRequest_run ascii_lib 1000000000 ls
      (server.handleRequest_init h 1000000000) = Some st /\
    server.written st =
      [({| xxcode.ServiceMethod := "Bar.Timeout"; xxcode.SeqId := 1;
           xxcode.Error :=
             "rpc server: request handle timeout: expect within 1s" |},
        xxcode.VInvalidRequest)] /\
    server.worker st = server.WSendCalled None (xxcode.VInt 0).
Proof.
  intros h ls.
  eexists. split; [reflexivity|].
  pose proof (proj1 (@handleRequest_timeout_cases ascii_lib h 1000000000)
                ls _ eq_refl) as [_ Hcase].
  destruct (Hcase ltac:(discriminate) eq_refl) as [(_ & Hw & _) | (Hno & _)].
  - split; [exact Hw | reflexivity].
  - exfalso. apply Hno. cbn. tauto.
Defined.

(** ** [dialTimeout] *)

(** C5. [dialTimeout] with one option and a dial that succeeds. If
    [ConnectTimeout] is zero, it returns what the factory returns, when the
    factory returns, and blocks as long as the factory does; no timeout error
    is made. If [ConnectTimeout] is positive and the factory takes longer
    (or never returns), it fails after [ConnectTimeout] with the error "rpc
    client: connect timeout: expect within <d>", no client, and the
    connection closed. *)
Theorem dialTimeout_connect_timeout `{GoLib}
    (env : client.DialEnv) (opt : common.Option) :
  client.dialErr env = None ->
  (common.ConnectTimeout opt = 0 ->
     client.dialTimeout env [Some opt] =
       match client.handshake env with
       | Some (t, result) =>
           client.DialReturns (client.client_ result) (client.err_ result)
             (if is_nil (client.err_ result)
              then client.ConnOpen else client.ConnClosed) t
       | None => client.DialBlocks
       end)
  /\
  (0 < common.ConnectTimeout opt ->
   match client.handshake env with
   | Some (t, _) => common.ConnectTimeout opt < t
   | None => True
   end ->
   client.dialTimeout env [Some opt] =
     client.DialReturns None
       (Some ("rpc client: connect timeout: expect within "
                +:+ DurationString (common.ConnectTimeout opt)))
       client.ConnClosed (common.ConnectTimeout opt)).
Proof.
  intros Hdial. unfold client.dialTimeout.
  cbn [client.parseOptions length Nat.eqb negb common.ConnectTimeout].
  rewrite Hdial. split.
  - intros ->. cbn [Z.eqb]. by destruct (client.handshake env) as [[t r]|].
  - intros Hpos Hlong.
    assert ((common.ConnectTimeout opt =? 0) = false) as -> by lia.
    unfold client.timer_at, client.connect_timeout_message.
    rewrite Z.max_r by lia.
    destruct (client.handshake env) as [[t r]|]; [|done].
    unfold client.timer_selected, client.timer_at. rewrite Z.max_r by lia.
    by assert ((common.ConnectTimeout opt <? t) = true) as -> by lia.
Qed.

Lemma dialTimeout_connect_timeout_witness :
  let slow := {| client.dialErr := None;
                 client.handshake :=
                   Some (2000000000,
                         {| client.client_ := None; client.err_ := None |});
                 client.timerFirst := false |} in
  let opt d := {| common.OptMagicNumber := 0; common.CodeType := "";
                  common.ConnectTimeout := d; common.HandleTimeout := 0 |} in
  @client.dialTimeout ascii_lib slow [Some (opt 1000000000)] =
    client.DialReturns None
      (Some "rpc client: connect timeout: expect within 1s")
      client.ConnClosed 1000000000
  /\
  @client.dialTimeout ascii_lib slow [Some (opt 0)] =
    client.DialReturns None None client.ConnOpen 2000000000.
Proof.
  intros slow opt. split.
  - apply (proj2 (@dialTimeout_connect_timeout ascii_lib slow (opt 1000000000)
                    eq_refl)); cbn; lia.
  - apply (proj1 (@dialTimeout_connect_timeout ascii_lib slow (opt 0) eq_refl)).
    reflexivity.
Defined.

(** ** The client: [registerCall], [removeCall], [send] *)

Section ClientOps.
Import client.

Lemma Close_sets_closing (e : error) (st : State) :
  closing (cl (Close e st).1) = true.
Proof. unfold Close. by destruct (closing (cl st)) eqn:E. Qed.

(** Writing a field other than [Seq] of a call keeps the ids of the
    calls. *)
Lemma fmap_Seq_alter (f : Call -> Call) (p : ptr) (m : gmap ptr Call) :
  (forall c, Seq (f c) = Seq c) ->
  Seq <$> alter f p m = Seq <$> m.
Proof.
  intros Hf. apply map_eq. intros q.
  rewrite !lookup_fmap, lookup_alter. case_decide; [subst q|done].
  destruct (m !! p); cbn; [by rewrite Hf | done].
Qed.

(** [terminateCalls] touches the client only to set [shutdown]; it signals
    every pending call once, in the order of the loop. *)
Lemma terminateCalls_effect (err : error) (st : State) :
  let st' := terminateCalls err st in
  seq (cl st') = seq (cl st) /\
  pending (cl st') = pending (cl st) /\
  closing (cl st') = closing (cl st) /\
  shutdown (cl st') = true /\
  signals st' = signals st ++ (map_to_list (pending (cl st))).*2 /\
  Seq <$> calls st' = Seq <$> calls st.
Proof.
  unfold terminateCalls.
  generalize (map_to_list (pending (cl st))) as l.
  intros l. induction l as [|kv l IH] using rev_ind.
  - cbn. rewrite app_nil_r. done.
  - rewrite foldl_app, fmap_app. cbn [foldl fmap list_fmap].
    destruct IH as (Hs & Hp & Hc & Hsh & Hsig & Hcalls).
    cbn [done assign_Error cl signals calls].
    rewrite Hsig, <- app_assoc. split_and!; try done.
    rewrite <- Hcalls. by apply fmap_Seq_alter.
Qed.

Lemma removeCall_absent (s : Z) (st : State) :
  pending (cl st) !! s = None -> removeCall s st = (st, None).
Proof.
  intros Hs. unfold removeCall. rewrite Hs, (delete_id _ _ Hs).
  by destruct st as [[] ? ?].
Qed.

End ClientOps.

(** C7. Once [closing] or [shutdown] is set, [registerCall] fails with
    "connection is closed" and the state is the same: the pending map and
    the next sequence id are unchanged. A call made through [Go] then keeps
    [Seq] zero, has that error, and is signalled complete; the client is
    unchanged and so is every other call. [Close] sets [closing] and
    [terminateCalls] sets [shutdown]. *)
Theorem registerCall_after_close
    (st : client.State) (call : client.ptr)
    (serviceMethod : string) (args : xxcode.Body) (werr : error) :
  client.closing (client.cl st) || client.shutdown (client.cl st) = true ->
  client.registerCall call st = (st, (0, Some "connection is closed")) /\
  (let st' := client.Go call serviceMethod args werr st in
   client.cl st' = client.cl st /\
   client.calls st' !! call =
     Some {| client.Seq := 0; client.CServiceMethod := serviceMethod;
             client.Args := args; client.Reply := None;
             client.CError := Some "connection is closed" |} /\
   client.signals st' = client.signals st ++ [call] /\
   (forall q, q <> call -> client.calls st' !! q = client.calls st !! q)) /\
  (forall e, client.closing (client.cl (client.Close e st).1) = true) /\
  (forall err, client.shutdown (client.cl (client.terminateCalls err st)) = true).
Proof.
  intros Hclosed. split_and!.
  - unfold client.registerCall. by rewrite Hclosed.
  - unfold client.Go, client.send, client.send_register, client.registerCall.
    cbn [client.new_Call client.cl]. rewrite Hclosed.
    cbn [client.done client.assign_Error client.cl client.calls client.signals].
    split_and!; try done.
    + unfold client.new_Call. cbn [client.calls].
      by rewrite lookup_alter_eq, lookup_insert_eq.
    + intros q Hq. unfold client.new_Call. cbn [client.calls].
      by rewrite lookup_alter_ne, lookup_insert_ne.
  - intros e. apply Close_sets_closing.
  - intros err. apply terminateCalls_effect.
Qed.

Lemma registerCall_after_close_witness :
  let closed := (client.Close None client.newClientCode).1 in
  client.registerCall 1%positive closed =
    (closed, (0, Some "connection is closed")) /\
  client.calls (client.Go 1%positive "Foo.Sum" (xxcode.VInt 1) None closed)
    !! 1%positive =
    Some {| client.Seq := 0; client.CServiceMethod := "Foo.Sum";
            client.Args := xxcode.VInt 1; client.Reply := None;
            client.CError := Some "connection is closed" |}.
Proof.
  intros closed.
  pose proof (registerCall_after_close closed 1%positive "Foo.Sum"
                (xxcode.VInt 1) None eq_refl) as (Hreg & (_ & Hcall & _) & _).
  split; [exact Hreg | exact Hcall].
Defined.

(** ** The client: what each operation does to the view *)

Section ClientViews.
Context `{GoLib}.
Import client.

Lemma view_removeCall (s : Z) (st : State) :
  view (removeCall s st).1 =
    {| v_seq := seq (cl st); v_pending := delete s (pending (cl st));
       v_closing := closing (cl st); v_shutdown := shutdown (cl st);
       v_ids := Seq <$> calls st; v_signals := signals st |}
  /\ (removeCall s st).2 = pending (cl st) !! s
  /\ calls (removeCall s st).1 = calls st.
Proof. done. Qed.

Lemma view_complete (p : ptr) (f : Call -> Call) (st : State) :
  (forall c, Seq (f c) = Seq c) ->
  view (done p {| cl := cl st; calls := alter f p (calls st);
                  signals := signals st |}) =
    {| v_seq := seq (cl st); v_pending := pending (cl st);
       v_closing := closing (cl st); v_shutdown := shutdown (cl st);
       v_ids := Seq <$> calls st; v_signals := signals st ++ [p] |}.
Proof.
  intros Hf. unfold view, done. cbn [cl calls signals].
  by rewrite fmap_Seq_alter.
Qed.

Lemma view_receive_iter (h : xxcode.Header) body berr (st : State) :
  view (receive_iter h body berr st).1 =
    {| v_seq := seq (cl st);
       v_pending := delete (xxcode.SeqId h) (pending (cl st));
       v_closing := closing (cl st); v_shutdown := shutdown (cl st);
       v_ids := Seq <$> calls st;
       v_signals := signals st ++ olist (pending (cl st) !! xxcode.SeqId h) |}
  /\ (receive_iter h body berr st).2 = berr
  /\ dom (calls (receive_iter h body berr st).1) = dom (calls st).
Proof.
  unfold receive_iter, removeCall.
  destruct (pending (cl st) !! xxcode.SeqId h) as [p|]; cbn [olist].
  2: { rewrite app_nil_r. done. }
  destruct (negb (String.eqb (xxcode.Error h) "")).
  - unfold view, done, assign_Error. cbn [cl calls signals fst snd].
    rewrite !fmap_Seq_alter by (intros ?; reflexivity). by rewrite dom_alter_L.
  - destruct berr as [e|]; unfold view, done, assign_Error;
      cbn [cl calls signals fst snd];
      rewrite ?fmap_Seq_alter by (intros ?; reflexivity); by rewrite ?dom_alter_L.
Qed.

Lemma view_send_written (s : Z) (e : string) (st : State) :
  view (send_written s (Some e) st) =
    {| v_seq := seq (cl st); v_pending := delete s (pending (cl st));
       v_closing := closing (cl st); v_shutdown := shutdown (cl st);
       v_ids := Seq <$> calls st;
       v_signals := signals st ++ olist (pending (cl st) !! s) |}
  /\ dom (calls (send_written s (Some e) st)) = dom (calls st).
Proof.
  unfold send_written, removeCall.
  destruct (pending (cl st) !! s) as [p|]; cbn [olist].
  2: { rewrite app_nil_r. done. }
  unfold view, done, assign_Error. cbn [cl calls signals].
  rewrite !fmap_Seq_alter by (intros ?; reflexivity). by rewrite dom_alter_L.
Qed.

Lemma view_send_register (p : ptr) sm args (st : State) :
  let r := send_register p (new_Call p sm args st) in
  if closing (cl st) || shutdown (cl st) then
    r.2 = None /\
    view r.1 =
      {| v_seq := seq (cl st); v_pending := pending (cl st);
         v_closing := closing (cl st); v_shutdown := shutdown (cl st);
         v_ids := <[p := 0]> (Seq <$> calls st);
         v_signals := signals st ++ [p] |}
  else
    r.2 = Some (seq (cl st)) /\
    view r.1 =
      {| v_seq := wrap64 (seq (cl st) + 1);
         v_pending := <[seq (cl st) := p]> (pending (cl st));
         v_closing := closing (cl st); v_shutdown := shutdown (cl st);
         v_ids := <[p := seq (cl st)]> (Seq <$> calls st);
         v_signals := signals st |}.
Proof.
  unfold send_register, registerCall, new_Call. cbn [cl calls signals].
  destruct (closing (cl st) || shutdown (cl st)).
  - split; [done|]. unfold view, done, assign_Error. cbn.
    rewrite !fmap_Seq_alter by (intros ?; reflexivity). by rewrite fmap_insert.
  - split; [done|]. unfold view. cbn.
    f_equal. apply map_eq. intros q.
    rewrite lookup_fmap, lookup_alter, !lookup_insert.
    repeat case_decide; try done. by rewrite lookup_fmap.
Qed.

Lemma view_Close (e : error) (st : State) :
  view (Close e st).1 =
    {| v_seq := seq (cl st); v_pending := pending (cl st);
       v_closing := true; v_shutdown := shutdown (cl st);
       v_ids := Seq <$> calls st; v_signals := signals st |}
  /\ calls (Close e st).1 = calls st.
Proof.
  unfold Close. destruct (closing (cl st)) eqn:E; [|done].
  unfold view. cbn [fst]. by rewrite E.
Qed.

Lemma view_terminateCalls (err : error) (st : State) :
  view (terminateCalls err st) =
    {| v_seq := seq (cl st); v_pending := pending (cl st);
       v_closing := closing (cl st); v_shutdown := true;
       v_ids := Seq <$> calls st;
       v_signals := signals st ++ (map_to_list (pending (cl st))).*2 |}.
Proof.
  destruct (terminateCalls_effect err st) as (H1 & H2 & H3 & H4 & H5 & H6).
  unfold view. by rewrite H1, H2, H3, H4, H5, H6.
Qed.

End ClientViews.

(** ** Counting signals and outcomes *)

Section Counting.
Import client.

Lemma count_app (p : ptr) (l1 l2 : list ptr) :
  count p (l1 ++ l2) = (count p l1 + count p l2)%nat.
Proof. apply count_occ_app. Qed.

Lemma count_olist (p : ptr) (q : option ptr) :
  count p (olist q) = if decide (q = Some p) then 1%nat else 0%nat.
Proof.
  destruct q as [q|]; cbn; [|by case_decide].
  destruct (Pos.eq_dec q p) as [->|Hne]; case_decide; congruence.
Qed.

Lemma count_single (p q : ptr) :
  count p [q] = if decide (q = p) then 1%nat else 0%nat.
Proof.
  cbn. destruct (Pos.eq_dec q p) as [->|Hne]; case_decide; congruence.
Qed.

Lemma count_notin (p : ptr) (l : list ptr) :
  p ∉ l -> count p l = 0%nat.
Proof.
  intros Hp. apply count_occ_not_In. by rewrite <- list_elem_of_In.
Qed.

Lemma count_in (p : ptr) (l : list ptr) :
  p ∈ l -> (0 < count p l)%nat.
Proof.
  intros Hp%list_elem_of_In. by apply (count_occ_In Pos.eq_dec).
Qed.

Lemma count_NoDup (p : ptr) (l : list ptr) :
  NoDup l -> (count p l <= 1)%nat.
Proof.
  induction 1 as [|x l Hx Hl IH]; [cbn; lia|].
  change (x :: l) with ([x] ++ l). rewrite count_app, count_single.
  case_decide; [subst x; rewrite (count_notin p l Hx)|]; lia.
Qed.

Lemma outs_app (p : ptr) (l1 l2 : list (ptr * Outcome)) :
  outs p (l1 ++ l2) = outs p l1 ++ outs p l2.
Proof. unfold outs. by rewrite filter_app, fmap_app. Qed.

Lemma outs_note (p : ptr) (q : option ptr) (o : Outcome) :
  outs p (note q o) = if decide (q = Some p) then [o] else [].
Proof.
  destruct q as [q|]; [|by case_decide].
  unfold note, outs. rewrite filter_cons, filter_nil. cbn [fst].
  repeat case_decide; try congruence; done.
Qed.

Lemma outs_all (p : ptr) (o : Outcome) (l : list (Z * ptr)) :
  outs p (map (fun kv : Z * ptr => (kv.2, o)) l) =
  replicate (count p l.*2) o.
Proof.
  induction l as [|[k q] l IH]; [done|].
  cbn [map fmap list_fmap snd].
  change ((q, o) :: ?t) with ([(q, o)] ++ t).
  change (q :: ?t) with ([q] ++ t).
  rewrite outs_app, count_app, IH, count_single.
  unfold outs at 1. rewrite filter_cons, filter_nil. cbn [fst].
  repeat case_decide; try congruence; done.
Qed.

(** The values of a map in which a value determines its key. *)
Lemma count_values_in (p : ptr) (k : Z) (m : gmap Z ptr) (ids : gmap ptr Z) :
  (forall k q, m !! k = Some q -> ids !! q = Some k) ->
  m !! k = Some p ->
  count p (map_to_list m).*2 = 1%nat.
Proof.
  intros Hinj Hk.
  assert (count p (map_to_list m).*2 <= 1)%nat.
  { apply count_NoDup. apply NoDup_fmap_2_strong; [|apply NoDup_map_to_list].
    intros [k1 q1] [k2 q2] H1%elem_of_map_to_list H2%elem_of_map_to_list.
    cbn. intros ->. f_equal.
    apply Hinj in H1, H2. congruence. }
  assert (0 < count p (map_to_list m).*2)%nat; [|lia].
  apply count_in. apply list_elem_of_fmap. exists (k, p). split; [done|].
  by apply elem_of_map_to_list.
Qed.

Lemma count_values_notin (p : ptr) (m : gmap Z ptr) :
  (forall k, m !! k <> Some p) ->
  count p (map_to_list m).*2 = 0%nat.
Proof.
  intros Hp. apply count_notin. intros [[k q] [-> Hin]]%list_elem_of_fmap.
  apply elem_of_map_to_list in Hin. by apply (Hp k).
Qed.

Lemma first_ids_S (n : nat) :
  first_ids (S n) = first_ids n ++ [wrap64 (Z.of_nat (S n))].
Proof. unfold first_ids. by rewrite seq_S, fmap_app. Qed.

Lemma wrap64_succ (z : Z) : wrap64 (wrap64 z + 1) = wrap64 (z + 1).
Proof. unfold wrap64. by rewrite Zplus_mod_idemp_l. Qed.

End Counting.

(** ** The invariant is kept by every step *)

Section Invariant.
Context `{GoLib}.
Import client.

Lemma Inv_init : Inv init.
Proof.
  split; cbn.
  - intros k p. by rewrite lookup_empty.
  - done.
  - intros _ k p. by rewrite lookup_empty.
  - done.
  - intros p. split_and!; [lia | lia | by left].
  - done.
Qed.

(** An entry leaves the pending map (by the reader, by a failed [Write],
    or by a cancellation): the call it held, if any, gets the outcome [o],
    and a signal when [sig] is set. *)
Lemma Inv_remove (w w' : World) (s : Z) (o : Outcome) (sig : bool) :
  let v := view (st w) in
  let q := v_pending v !! s in
  Inv w ->
  view (st w') =
    {| v_seq := v_seq v; v_pending := delete s (v_pending v);
       v_closing := v_closing v; v_shutdown := v_shutdown v;
       v_ids := v_ids v;
       v_signals := v_signals v ++ (if sig then olist q else []) |} ->
  outcomes w' = outcomes w ++ note q o ->
  assigned w' = assigned w ->
  received w' = received w ->
  (reader w' = Dead <-> reader w = Dead) ->
  (sending w' = None \/ sending w' = sending w) ->
  (sig = true -> reader w <> Dead) ->
  (sig = false -> o = Cancelled) ->
  Inv w'.
Proof.
  intros v q [Hpend Hfresh Hlive Hdead Honce Hseq]
         Hv Hout Hass Hrec Hreader Hsend Hsig Hnosig.
  fold v in Hpend, Hfresh, Hlive, Hdead, Honce, Hseq.
  (* a call other than the removed one keeps its history *)
  assert (Hother : forall p, q <> Some p ->
            count p (v_signals (view (st w'))) = count p (v_signals v) /\
            outcomes_of p w' = outcomes_of p w).
  { intros p Hp. rewrite Hv. cbn [v_signals]. unfold outcomes_of.
    rewrite Hout, count_app, outs_app, outs_note.
    destruct sig; rewrite ?count_olist; repeat case_decide;
      try congruence; cbn; rewrite ?app_nil_r; split; (lia || done). }
  (* the entries that stay are not the removed one *)
  assert (Hstay : forall k p, delete s (v_pending v) !! k = Some p ->
            v_pending v !! k = Some p /\ q <> Some p).
  { intros k p [Hks Hk]%lookup_delete_Some. split; [done|].
    unfold q. intros Hq. apply Hpend in Hk as [Hk _], Hq as [Hq _].
    congruence. }
  split.
  - rewrite Hv. cbn [v_pending v_ids]. intros k p [Hk _]%Hstay.
    rewrite Hass. by apply Hpend.
  - intros p Hp. rewrite Hv in Hp. cbn [v_ids] in Hp.
    destruct (Hother p) as [-> ->]; [|by apply Hfresh].
    unfold q. intros [Hq _]%Hpend. congruence.
  - intros Hr k p Hk. rewrite Hv in Hk. cbn [v_pending] in Hk.
    apply Hstay in Hk as [Hk Hne]. destruct (Hother p Hne) as [-> ->].
    apply (Hlive ltac:(tauto) k p Hk).
  - intros Hr. apply Hreader in Hr.
    destruct (Hdead Hr) as (Hs & Hsh & Hall). split_and!.
    + destruct Hsend as [?|Hsame]; [done|congruence].
    + by rewrite Hv.
    + intros k p Hk. rewrite Hv in Hk. cbn [v_pending] in Hk.
      apply Hstay in Hk as [Hk Hne]. destruct (Hother p Hne) as [-> ->].
      by apply (Hall k p).
  - intros p. destruct (Honce p) as (H1 & H2 & H3). rewrite Hrec.
    destruct (decide (q = Some p)) as [Hq|Hne].
    2: { by destruct (Hother p Hne) as [-> ->]. }
    rewrite Hv. cbn [v_signals]. unfold outcomes_of.
    rewrite Hout, count_app, outs_app, outs_note.
    rewrite decide_True by done.
    assert (reader w = Dead \/ reader w <> Dead) as [Hr|Hr]
      by (destruct (reader w); auto).
    + destruct sig; [by apply Hsig in Hr|]. rewrite (Hnosig eq_refl).
      destruct (Hdead Hr) as (_ & _ & Hall).
      destruct (Hall s p Hq) as [_ Ho]. unfold outcomes_of in Ho.
      rewrite Ho. cbn. rewrite Nat.add_0_r. split_and!; try done.
      by right; right.
    + destruct (Hlive Hr s p Hq) as [Hc Ho]. unfold outcomes_of in Ho.
      rewrite Ho, Hc in *.
      destruct sig; rewrite ?count_olist, ?decide_True by done; cbn;
        (split_and!; [lia | lia | right; left; eauto]).
  - rewrite Hv. cbn [v_seq]. by rewrite Hass.
Qed.


(** Nothing the invariant looks at changes, but for [closing], the
    [sending] mutex being released, the reader leaving its loop, or a
    completion being taken by its awaiter. *)
Lemma Inv_same (w w' : World) :
  Inv w ->
  v_seq (view (st w')) = v_seq (view (st w)) ->
  v_pending (view (st w')) = v_pending (view (st w)) ->
  v_shutdown (view (st w')) = v_shutdown (view (st w)) ->
  v_ids (view (st w')) = v_ids (view (st w)) ->
  v_signals (view (st w')) = v_signals (view (st w)) ->
  outcomes w' = outcomes w ->
  assigned w' = assigned w ->
  (received w' = received w \/
   exists p, received w' = received w ++ [p] /\
             (count p (received w) < count p (v_signals (view (st w))))%nat) ->
  (reader w' = Dead <-> reader w = Dead) ->
  (sending w' = None \/ sending w' = sending w) ->
  Inv w'.
Proof.
  intros [Hpend Hfresh Hlive Hdead Honce Hseq]
         Hs Hp Hsh Hi Hsig Hout Hass Hrec Hreader Hsend.
  split; unfold outcomes_of in *;
    rewrite ?Hs, ?Hp, ?Hsh, ?Hi, ?Hsig, ?Hout, ?Hass; try done.
  - intros Hr. apply Hlive. tauto.
  - intros Hr%Hreader. destruct (Hdead Hr) as (Hsn & ? & ?).
    split_and!; try done. destruct Hsend; congruence.
  - intros p. destruct (Honce p) as (H1 & H2 & H3).
    split_and!; try done.
    destruct Hrec as [->|(p' & -> & Hlt)]; [done|].
    rewrite count_app, count_single. case_decide; [subst p'|]; lia.
Qed.

(** [registerCall] succeeds for a call at a fresh address. *)
Lemma Inv_go_ok (w w' : World) (p : ptr) :
  let v := view (st w) in
  Inv w ->
  v_ids v !! p = None ->
  v_shutdown v = false ->
  view (st w') =
    {| v_seq := wrap64 (v_seq v + 1);
       v_pending := <[v_seq v := p]> (v_pending v);
       v_closing := v_closing v; v_shutdown := v_shutdown v;
       v_ids := <[p := v_seq v]> (v_ids v);
       v_signals := v_signals v |} ->
  outcomes w' = outcomes w ->
  assigned w' = assigned w ++ [v_seq v] ->
  received w' = received w ->
  reader w' = reader w ->
  Inv w'.
Proof.
  intros v [Hpend Hfresh Hlive Hdead Honce Hseq]
         Hp Hsh Hv Hout Hass Hrec Hreader.
  fold v in Hpend, Hfresh, Hlive, Hdead, Honce, Hseq.
  assert (Halive : reader w <> Dead).
  { intros Hr. destruct (Hdead Hr) as (_ & ? & _). congruence. }
  (* the entries of the new map *)
  assert (Hnew : forall k q, <[v_seq v := p]> (v_pending v) !! k = Some q ->
            (k = v_seq v /\ q = p) \/
            (v_pending v !! k = Some q /\ q <> p)).
  { intros k q [[<- <-]|[Hne Hk]]%lookup_insert_Some; [by left|right].
    split; [done|]. intros ->. apply Hpend in Hk as [Hk _]. congruence. }
  split; unfold outcomes_of in *; rewrite ?Hv, ?Hout, ?Hrec, ?Hreader;
    cbn [v_seq v_pending v_shutdown v_ids v_signals].
  - intros k q [[-> ->]|[Hk Hne]]%Hnew.
    + rewrite lookup_insert_eq, Hass. split; [done|].
      apply in_or_app. right. by left.
    + rewrite lookup_insert_ne by done. rewrite Hass.
      destruct (Hpend k q Hk). split; [done|]. apply in_or_app. by left.
  - intros q [Hq Hne]%lookup_insert_None. by apply Hfresh.
  - intros _ k q [[-> ->]|[Hk Hne]]%Hnew; [by apply Hfresh|].
    by apply (Hlive Halive k q).
  - done.
  - done.
  - rewrite Hass, length_app, Nat.add_comm. cbn [length Nat.add].
    destruct Hseq as [Hs Ha]. split.
    + rewrite Hs, wrap64_succ. f_equal. lia.
    + rewrite first_ids_S, <- Ha, Hs. do 3 f_equal. lia.
Qed.

(** [registerCall] fails for a call at a fresh address: the call is
    signalled, with no outcome of a registered call. *)
Lemma Inv_go_fail (w w' : World) (p : ptr) :
  let v := view (st w) in
  Inv w ->
  v_ids v !! p = None ->
  view (st w') =
    {| v_seq := v_seq v; v_pending := v_pending v;
       v_closing := v_closing v; v_shutdown := v_shutdown v;
       v_ids := <[p := 0]> (v_ids v);
       v_signals := v_signals v ++ [p] |} ->
  outcomes w' = outcomes w ->
  assigned w' = assigned w ->
  received w' = received w ->
  reader w' = reader w ->
  sending w' = sending w ->
  Inv w'.
Proof.
  intros v [Hpend Hfresh Hlive Hdead Honce Hseq]
         Hp Hv Hout Hass Hrec Hreader Hsend.
  fold v in Hpend, Hfresh, Hlive, Hdead, Honce, Hseq.
  assert (Hkeep : forall k q, v_pending v !! k = Some q -> q <> p).
  { intros k q [Hk _]%Hpend ->. congruence. }
  assert (Hcount : forall q, q <> p ->
            count q (v_signals v ++ [p]) = count q (v_signals v)).
  { intros q Hq. rewrite count_app, count_single.
    case_decide; [congruence | lia]. }
  split; unfold outcomes_of in *;
    rewrite ?Hv, ?Hout, ?Hrec, ?Hreader, ?Hsend, ?Hass;
    cbn [v_seq v_pending v_shutdown v_ids v_signals]; try done.
  - intros k q Hk. rewrite lookup_insert_ne by (symmetry; by eapply Hkeep).
    by apply Hpend.
  - intros q [Hq Hne]%lookup_insert_None. rewrite Hcount by done.
    by apply Hfresh.
  - intros Hr k q Hk. rewrite Hcount by (by eapply Hkeep).
    by apply (Hlive Hr k q).
  - intros Hr. destruct (Hdead Hr) as (? & ? & Hall). split_and!; try done.
    intros k q Hk. rewrite Hcount by (by eapply Hkeep). by apply (Hall k q).
  - intros q. destruct (Honce q) as (H1 & H2 & H3).
    destruct (decide (q = p)) as [->|Hne].
    + destruct (Hfresh p Hp) as [Hc Ho].
      rewrite count_app, count_single, decide_True, Hc in * by done.
      split_and!; try done; lia.
    + by rewrite Hcount.
Qed.

(** [terminateCalls] *)
Lemma Inv_terminate (w w' : World) :
  let v := view (st w) in
  Inv w ->
  reader w <> Dead ->
  view (st w') =
    {| v_seq := v_seq v; v_pending := v_pending v;
       v_closing := v_closing v; v_shutdown := true;
       v_ids := v_ids v;
       v_signals := v_signals v ++ (map_to_list (v_pending v)).*2 |} ->
  outcomes w' =
    outcomes w ++ map (fun kv : Z * ptr => (kv.2, Terminated))
                      (map_to_list (v_pending v)) ->
  assigned w' = assigned w ->
  received w' = received w ->
  reader w' = Dead ->
  sending w' = None ->
  Inv w'.
Proof.
  intros v [Hpend Hfresh Hlive Hdead Honce Hseq]
         Halive Hv Hout Hass Hrec Hreader Hsend.
  fold v in Hpend, Hfresh, Hlive, Hdead, Honce, Hseq.
  assert (Hinj : forall k q, v_pending v !! k = Some q -> v_ids v !! q = Some k).
  { intros k q Hk. by apply Hpend. }
  assert (Hin : forall k q, v_pending v !! k = Some q ->
            count q (v_signals v ++ (map_to_list (v_pending v)).*2) = 1%nat /\
            outs q (outcomes w ++ map (fun kv : Z * ptr => (kv.2, Terminated))
                                      (map_to_list (v_pending v)))
              = [Terminated]).
  { intros k q Hk. destruct (Hlive Halive k q Hk) as [Hc Ho].
    unfold outcomes_of in Ho.
    rewrite count_app, outs_app, outs_all, Hc, Ho.
    by rewrite (count_values_in q k _ _ Hinj Hk). }
  assert (Hnotin : forall q, (forall k, v_pending v !! k <> Some q) ->
            count q (v_signals v ++ (map_to_list (v_pending v)).*2)
              = count q (v_signals v) /\
            outs q (outcomes w ++ map (fun kv : Z * ptr => (kv.2, Terminated))
                                      (map_to_list (v_pending v)))
              = outs q (outcomes w)).
  { intros q Hq.
    rewrite count_app, outs_app, outs_all, (count_values_notin q _ Hq).
    cbn. rewrite app_nil_r. split; [lia | done]. }
  split; unfold outcomes_of in *;
    rewrite ?Hv, ?Hout, ?Hrec, ?Hreader, ?Hsend, ?Hass;
    cbn [v_seq v_pending v_shutdown v_ids v_signals]; try done.
  - intros q Hq. destruct (Hnotin q) as [-> ->]; [|by apply Hfresh].
    intros k [Hk _]%Hpend. congruence.
  - intros q. destruct (Honce q) as (H1 & H2 & H3).
    destruct (v_ids v !! q) as [k|] eqn:Hid.
    2: { destruct (Hnotin q) as [-> ->]; [|done].
         intros k [Hk _]%Hpend. congruence. }
    destruct (v_pending v !! k) as [q'|] eqn:Hk.
    + destruct (decide (q' = q)) as [->|Hne].
      * destruct (Hin k q Hk) as [-> ->].
        destruct (Hlive Halive k q Hk) as [Hc _]. rewrite Hc in H2.
        split_and!; [lia | lia | right; left; eauto].
      * destruct (Hnotin q) as [-> ->]; [|done].
        intros k' Hk'. pose proof (Hinj _ _ Hk'). congruence.
    + destruct (Hnotin q) as [-> ->]; [|done].
      intros k' Hk'. pose proof (Hinj _ _ Hk'). congruence.
Qed.

End Invariant.

Section Reachable.
Context `{GoLib}.
Import client.

Lemma ids_fresh (s : State) (p : ptr) :
  calls s !! p = None -> v_ids (view s) !! p = None.
Proof. intros Hp. unfold view. cbn. by rewrite lookup_fmap, Hp. Qed.

Lemma Inv_step (l : Label) (w w' : World) :
  Inv w -> step l w = Some w' -> Inv w'.
Proof.
  intros HI Hstep. destruct l as [p sm args|werr|e|h body berr| |p|p|ccerr];
    cbn [step] in Hstep.
  - (* Go *)
    destruct (calls (st w) !! p) eqn:Hp; [done|].
    destruct (sending w) eqn:Hs; [done|].
    pose proof (view_send_register p sm args (st w)) as Hr. cbv zeta in Hr.
    destruct (send_register p (new_Call p sm args (st w)))
      as [st1 [seqId|]] eqn:E; cbn [fst snd] in Hr;
      destruct (closing (cl (st w)) || shutdown (cl (st w))) eqn:Hcl;
      destruct Hr as [Hr Hv]; try done; injection Hstep as <-.
    + injection Hr as ->.
      apply (Inv_go_ok w _ p); try done; [by apply ids_fresh|].
      by apply orb_false_iff in Hcl as [_ ?].
    + apply (Inv_go_fail w _ p); try done. by apply ids_fresh.
  - (* Write returns *)
    destruct (sending w) as [[p seqId]|] eqn:Hs; [|done].
    injection Hstep as <-. destruct werr as [e|].
    + destruct (view_send_written seqId e (st w)) as [Hv _].
      apply (Inv_remove w _ seqId SendFailed true); cbn; try done; auto.
      intros _ Hr. destruct (inv_dead w HI Hr) as [? _]. congruence.
    + apply (Inv_same w); cbn; try done; auto.
      rewrite app_nil_r. done.
  - (* ReadHeader fails *)
    destruct (reader w) eqn:Hr; try done. injection Hstep as <-.
    apply (Inv_same w); cbn; try done; auto. by rewrite Hr.
  - (* an iteration of receive *)
    destruct (reader w) eqn:Hr; try done.
    destruct (view_receive_iter h body berr (st w)) as (Hv & He & _).
    destruct (receive_iter h body berr (st w)) as [st1 err].
    cbn [fst snd] in Hv, He. subst err. injection Hstep as <-.
    apply (Inv_remove w _ (xxcode.SeqId h) (receive_outcome h berr) true);
      cbn; try done; auto.
    + rewrite Hr. by destruct berr.
    + intros _. by rewrite Hr.
  - (* terminateCalls *)
    destruct (reader w) as [|err|] eqn:Hr; try done.
    destruct (sending w) eqn:Hs; [done|]. injection Hstep as <-.
    apply (Inv_terminate w); cbn; try done.
    + by rewrite Hr.
    + apply view_terminateCalls.
  - (* cancellation *)
    destruct (thr w !! p) as [[]|]; try done.
    injection Hstep as <-.
    apply (Inv_remove w _ (Seq_of (st w) p) Cancelled false);
      cbn; try done; auto.
    by rewrite app_nil_r.
  - (* the completion is taken *)
    destruct (thr w !! p) as [[]|]; try done.
    destruct (count p (received w) <? count p (signals (st w)))%nat eqn:Hlt;
      [|done].
    injection Hstep as <-. apply Nat.ltb_lt in Hlt.
    apply (Inv_same w); cbn; try done; auto. right. eauto.
  - (* Close *)
    injection Hstep as <-.
    destruct (view_Close ccerr (st w)) as [Hv _].
    apply (Inv_same w); cbn [st outcomes assigned received reader sending];
      try rewrite Hv; try done; auto.
Qed.

Lemma run_app (ls1 ls2 : list Label) (w : World) :
  run (ls1 ++ ls2) w =
  match run ls1 w with Some w1 => run ls2 w1 | None => None end.
Proof.
  revert w. induction ls1 as [|l ls1 IH]; intros w; cbn; [done|].
  destruct (step l w); [apply IH | done].
Qed.

Lemma reachable_init : reachable init.
Proof. by exists []. Qed.

Lemma reachable_step (l : Label) (w w' : World) :
  reachable w -> step l w = Some w' -> reachable w'.
Proof.
  intros [ls Hls] Hstep. exists (ls ++ [l]).
  rewrite run_app, Hls. cbn. by rewrite Hstep.
Qed.

Lemma Inv_run (ls : list Label) (w w' : World) :
  Inv w -> run ls w = Some w' -> Inv w'.
Proof.
  revert w. induction ls as [|l ls IH]; intros w HI; cbn.
  - by intros [= <-].
  - destruct (step l w) as [w1|] eqn:Hstep; [|done].
    apply IH. by apply (Inv_step l w).
Qed.

Lemma reachable_Inv (w : World) : reachable w -> Inv w.
Proof. intros [ls Hls]. apply (Inv_run ls init); [apply Inv_init | done]. Qed.

End Reachable.

(** ** Sequence ids *)

Section SequenceIds.
Context `{GoLib}.
Import client.

Lemma first_ids_small (n : nat) :
  Z.of_nat n < two64 -> first_ids n = Z.of_nat <$> List.seq 1 n.
Proof.
  intros Hn. unfold first_ids. apply list_fmap_ext.
  intros i x Hx. apply lookup_seq in Hx as [-> Hi].
  unfold wrap64. apply Z.mod_small. unfold two64 in *. lia.
Qed.

Lemma Seq_of_ids (s : State) (p : ptr) (k : Z) :
  v_ids (view s) !! p = Some k -> Seq_of s p = k.
Proof.
  unfold view, Seq_of. cbn. rewrite lookup_fmap.
  destruct (calls s !! p); cbn; congruence.
Qed.

Lemma view_eq_fields (s : State) (v : View) :
  view s = v ->
  seq (cl s) = v_seq v /\ pending (cl s) = v_pending v /\
  closing (cl s) = v_closing v /\ shutdown (cl s) = v_shutdown v /\
  Seq <$> calls s = v_ids v /\ signals s = v_signals v.
Proof. by intros <-. Qed.

(** A pending entry is held under the id of its call, so that two pending
    calls have the same id only when they are the same call. *)
Lemma pending_ids (w : World) :
  Inv w ->
  (forall k p, pending (cl (st w)) !! k = Some p -> Seq_of (st w) p = k) /\
  (forall k1 k2 p1 p2,
     pending (cl (st w)) !! k1 = Some p1 ->
     pending (cl (st w)) !! k2 = Some p2 ->
     (Seq_of (st w) p1 = Seq_of (st w) p2 <-> p1 = p2)).
Proof.
  intros HI.
  assert (Hkey : forall k p, pending (cl (st w)) !! k = Some p ->
            Seq_of (st w) p = k).
  { intros k p Hk. apply Seq_of_ids. by apply (inv_pending w HI k p Hk). }
  split; [done|].
  intros k1 k2 p1 p2 H1 H2. split; [|by intros ->].
  rewrite (Hkey _ _ H1), (Hkey _ _ H2). intros <-. congruence.
Qed.

(** Before the counter wraps, the ids given are [1], [2], ... in this
    order, and the keys of the pending map are among them. *)
Lemma ids_before_wrap (w : World) :
  Inv w ->
  Z.of_nat (length (assigned w)) < two64 ->
  assigned w = Z.of_nat <$> List.seq 1 (length (assigned w)) /\
  (forall i a, assigned w !! i = Some a -> a = Z.of_nat (S i)) /\
  (forall k p, pending (cl (st w)) !! k = Some p ->
     Seq_of (st w) p = k /\ 1 <= k <= Z.of_nat (length (assigned w))).
Proof.
  intros HI Hn. destruct (inv_seq w HI) as [_ Ha].
  rewrite (first_ids_small _ Hn) in Ha.
  assert (Hith : forall i a, assigned w !! i = Some a -> a = Z.of_nat (S i)).
  { intros i a Hi. rewrite Ha, list_lookup_fmap in Hi.
    destruct (List.seq 1 (length (assigned w)) !! i) as [j|] eqn:Hj; [|done].
    apply lookup_seq in Hj as [-> _]. cbn in Hi. congruence. }
  split_and!; try done.
  intros k p Hk. destruct (inv_pending w HI k p Hk) as [Hid Hin].
  split; [by apply Seq_of_ids|].
  apply list_elem_of_In, list_elem_of_lookup in Hin as [i Hi].
  pose proof (lookup_lt_Some _ _ _ Hi). apply Hith in Hi. lia.
Qed.

(** The ids given are [1], [2], [3], ... as [uint64]. *)
Lemma assigned_nth (w : World) :
  Inv w ->
  forall i a, assigned w !! i = Some a -> a = wrap64 (Z.of_nat i + 1).
Proof.
  intros HI i a Hi. destruct (inv_seq w HI) as [_ Ha].
  rewrite Ha in Hi. unfold first_ids in Hi. rewrite list_lookup_fmap in Hi.
  destruct (List.seq 1 (length (assigned w)) !! i) as [j|] eqn:Hj; [|done].
  apply lookup_seq in Hj as [-> _]. cbn in Hi. injection Hi as <-.
  f_equal. lia.
Qed.


End SequenceIds.

(** ** Where the calls of the heap are, before the counter wraps *)

Section Registered.
Context `{GoLib}.
Import client.
















End Registered.

(** ** Completion of calls *)




(** ** Sequence ids of one client *)

(** C6. On one client, a pending entry is held under the id of its call,
    so that two calls of the pending map never have the same id; and the
    ids given are [1], [2], [3], ... in this order, counted as [uint64].
    Within the range of the counter, fewer than [2^64] ids having been
    given: the id at position [i] of the ids given (from [0]) is [i + 1],
    so each id is at least [1] (never the reserved [0]) and strictly larger
    than every one given before, and none is given twice; the keys of the
    pending map are at least [1]. *)
Theorem sequence_ids_increase `{GoLib} (w : client.World) :
  client.reachable w ->
  (forall k p,
     client.pending (client.cl (client.st w)) !! k = Some p ->
     client.Seq_of (client.st w) p = k) /\
  (forall k1 k2 p1 p2,
     client.pending (client.cl (client.st w)) !! k1 = Some p1 ->
     client.pending (client.cl (client.st w)) !! k2 = Some p2 ->
     (client.Seq_of (client.st w) p1 = client.Seq_of (client.st w) p2
      <-> p1 = p2)) /\
  (forall i a,
     client.assigned w !! i = Some a -> a = wrap64 (Z.of_nat i + 1)) /\
  (Z.of_nat (length (client.assigned w)) < two64 ->
   client.assigned w = Z.of_nat <$> List.seq 1 (length (client.assigned w)) /\
   (forall i a, client.assigned w !! i = Some a -> a = Z.of_nat i + 1) /\
   (forall i j a b,
      client.assigned w !! i = Some a -> client.assigned w !! j = Some b ->
      (i < j)%nat -> 1 <= a < b) /\
   (forall k p,
      client.pending (client.cl (client.st w)) !! k = Some p -> 1 <= k)).
Proof.
  intros Hw%reachable_Inv.
  destruct (pending_ids w Hw) as [Hkey Hdist].
  split_and!; try done; [by apply assigned_nth|].
  intros Hn. destruct (ids_before_wrap w Hw Hn) as (Ha & Hith & Hkeys).
  split_and!; try done.
  - intros i a Hi%Hith. lia.
  - intros i j a b Hi%Hith Hj%Hith Hij. lia.
  - intros k p Hk. destruct (Hkeys k p Hk). lia.
Qed.

Lemma sequence_ids_increase_witness :
  let ls := [client.LGo 1%positive "Foo.Sum" (xxcode.VInt 1);
             client.LWritten None;
             client.LGo 2%positive "Foo.Sum" (xxcode.VInt 2);
             client.LWritten None] in
  exists w,
    @client.run ascii_lib ls client.init = Some w /\
    client.assigned w = [1; 2] /\
    client.pending (client.cl (client.st w)) !! 2 = Some 2%positive /\
    client.Seq_of (client.st w) 2%positive = 2.
Proof.
  intros ls.
  destruct (@client.run ascii_lib ls client.init) as [w|] eqn:Hrun;
    [|by vm_compute in Hrun].
  exists w. split; [done|].
  assert (Hlen : length (client.assigned w) = 2%nat).
  { vm_compute in Hrun. injection Hrun as <-. reflexivity. }
  assert (Hpend : client.pending (client.cl (client.st w)) !! 2 = Some 2%positive).
  { vm_compute in Hrun. injection Hrun as <-. reflexivity. }
  destruct (@sequence_ids_increase ascii_lib w (ex_intro _ ls Hrun))
    as (Hk & _ & _ & Hids).
  destruct Hids as (Ha & _ & _); [rewrite Hlen; reflexivity|].
  rewrite Hlen in Ha. split; [exact Ha|]. split; [exact Hpend|].
  apply (Hk 2 2%positive Hpend).
Defined.

(** ** [removeCall] and the cancellation of a call *)



(** ** The range of the counter

    The properties of the sequence ids above are stated for a client that
    has given fewer than [2^64] ids. The bound is that of the [uint64]
    counter [seq]: the lemmas of this part follow the counter to its end. *)

Section Wrap.
Context `{GoLib}.
Import client.

(** A call that is registered, written and answered: the client is at
    rest again, with the next id. *)
Lemma round_trip (w : World) :
  reachable w -> at_rest w ->
  exists w',
    reachable w' /\ at_rest w' /\
    seq (cl (st w')) = wrap64 (seq (cl (st w)) + 1) /\
    assigned w' = assigned w ++ [seq (cl (st w))].
Proof.
  intros Hw (Hpend & Hcl & Hsh & Hsend & Hread).
  set (p := fresh (dom (calls (st w)))).
  assert (Hp : calls (st w) !! p = None).
  { apply not_elem_of_dom. apply is_fresh. }
  (* Go *)
  pose proof (view_send_register p "" (xxcode.VInt 0) (st w)) as Hr.
  cbv zeta in Hr. rewrite Hcl, Hsh in Hr. cbn [orb] in Hr.
  destruct (send_register p (new_Call p "" (xxcode.VInt 0) (st w)))
    as [st1 r] eqn:E1. cbn [fst snd] in Hr. destruct Hr as [-> Hv1].
  apply view_eq_fields in Hv1 as (Hs1 & Hp1 & Hc1 & Hsh1 & _ & _).
  cbn in Hs1, Hp1, Hc1, Hsh1.
  set (s := seq (cl (st w))) in *.
  set (w1 := {| st := st1; sending := Some (p, s); reader := reader w;
                thr := <[p := InSend]> (thr w); outcomes := outcomes w;
                assigned := assigned w ++ [s]; received := received w |}).
  assert (H1 : step (LGo p "" (xxcode.VInt 0)) w = Some w1).
  { cbn [step]. by rewrite Hp, Hsend, E1. }
  (* Write returns nil *)
  set (w2 := {| st := st1; sending := None; reader := reader w;
                thr := <[p := Awaiting]> (<[p := InSend]> (thr w));
                outcomes := outcomes w ++ [];
                assigned := assigned w ++ [s]; received := received w |}).
  assert (H2 : step (LWritten None) w1 = Some w2) by done.
  (* the response is received *)
  set (h := {| xxcode.ServiceMethod := ""; xxcode.SeqId := s;
               xxcode.Error := "" |}).
  destruct (view_receive_iter h None None st1) as (Hv3 & He3 & _).
  destruct (receive_iter h None None st1) as [st3 err3] eqn:E3.
  cbn [fst snd] in Hv3, He3. subst err3.
  apply view_eq_fields in Hv3 as (Hs3 & Hp3 & Hc3 & Hsh3 & _ & _).
  cbn in Hs3, Hp3, Hc3, Hsh3.
  set (w3 := {| st := st3; sending := None; reader := Running;
                thr := thr w2;
                outcomes := outcomes w2 ++
                  note (pending (cl st1) !! xxcode.SeqId h)
                       (receive_outcome h None);
                assigned := assigned w ++ [s]; received := received w |}).
  assert (H3 : step (LReceive h None None) w2 = Some w3).
  { unfold w2. cbn [step reader st]. rewrite Hread. by rewrite E3. }
  exists w3. split_and!.
  - eapply reachable_step; [|exact H3].
    eapply reachable_step; [|exact H2].
    eapply reachable_step; [exact Hw | exact H1].
  - unfold at_rest. cbn [st sending reader w3].
    rewrite Hp3, Hp1, Hc3, Hc1, Hsh3, Hsh1, Hpend.
    split_and!; try done. by rewrite delete_insert_eq, delete_empty.
  - cbn [st w3]. by rewrite Hs3, Hs1.
  - done.
Qed.

(** A client can give any number of ids. *)
Lemma reachable_ids (n : Z) :
  0 <= n ->
  exists w,
    reachable w /\ at_rest w /\
    seq (cl (st w)) = wrap64 (1 + n) /\
    (0 < n -> exists ids, assigned w = ids ++ [wrap64 n]).
Proof.
  revert n. apply natlike_ind.
  - exists init. split_and!; [apply reachable_init | done | done | lia].
  - intros n Hn (w & Hw & Hrest & Hseq & Hass).
    destruct (round_trip w Hw Hrest) as (w' & Hw' & Hrest' & Hseq' & Hass').
    exists w'. split_and!; try done.
    + rewrite Hseq', Hseq, wrap64_succ. f_equal. lia.
    + intros _. exists (assigned w). rewrite Hass', Hseq. do 3 f_equal. lia.
Qed.

(** A client that has given the ids up to [2^64 - 1], one call after the
    other, gives the id [0] next. *)
Lemma sequence_id_zero_after_wrap :
  exists w ids,
    reachable w /\
    assigned w = ids ++ [two64 - 1; 0].
Proof.
  destruct (reachable_ids (two64 - 1)) as (w & Hw & Hrest & Hseq & Hass);
    [by vm_compute|].
  destruct Hass as [ids Hids]; [by vm_compute|].
  destruct (round_trip w Hw Hrest) as (w' & Hw' & _ & _ & Hass').
  exists w', ids. split; [done|].
  rewrite Hass', Hids, Hseq, <- app_assoc. reflexivity.
Qed.

(** The id [0] once given to a call [q], the cancellation of a call [p]
    whose registration failed ([Seq] zero) finds the entry of [q]. *)
Lemma cancellation_removes_other_call :
  exists (w0 w1 w2 : World) (p q : ptr),
    reachable w0 /\
    closing (cl (st w0)) = true /\
    pending (cl (st w0)) !! 0 = Some q /\
    step (LGo p "Bar.Timeout" (xxcode.VInt 1)) w0 = Some w1 /\
    Seq_of (st w1) p = 0 /\
    p <> q /\
    step (LCancel p) w1 = Some w2 /\
    pending (cl (st w2)) !! 0 = None /\
    outcomes w2 = outcomes w1 ++ [(q, Cancelled)].
Proof.
  destruct (reachable_ids (two64 - 1)) as (w & Hw & Hrest & Hseq & _);
    [by vm_compute|].
  change (wrap64 (1 + (two64 - 1))) with 0 in Hseq.
  destruct Hrest as (Hpend & Hcl & Hsh & Hsend & Hread).
  (* the call [q] gets the id 0 *)
  set (q := fresh (dom (calls (st w)))).
  assert (Hq : calls (st w) !! q = None).
  { apply not_elem_of_dom. apply is_fresh. }
  pose proof (view_send_register q "" (xxcode.VInt 0) (st w)) as Hr.
  cbv zeta in Hr. rewrite Hcl, Hsh, Hseq, Hpend in Hr. cbn [orb] in Hr.
  destruct (send_register q
              (new_Call q "" (xxcode.VInt 0) (st w)))
    as [st1 r] eqn:E1. cbn [fst snd] in Hr. destruct Hr as [-> Hv1].
  apply view_eq_fields in Hv1 as (_ & Hp1 & Hc1 & Hsh1 & Hi1 & _).
  cbn in Hp1, Hc1, Hsh1, Hi1.
  assert (Hq1 : is_Some (calls st1 !! q)).
  { apply (f_equal (fun m => m !! q)) in Hi1.
    rewrite lookup_fmap, lookup_insert_eq in Hi1.
    destruct (calls st1 !! q); [eauto | done]. }
  set (w1 := {| st := st1; sending := Some (q, 0);
                reader := reader w;
                thr := <[q := InSend]> (thr w);
                outcomes := outcomes w;
                assigned := assigned w ++ [0];
                received := received w |}).
  assert (H1 : step (LGo q "" (xxcode.VInt 0)) w = Some w1).
  { cbn [step]. by rewrite Hq, Hsend, E1. }
  destruct (step (LWritten None) w1) as [w2|] eqn:H2; [|done].
  destruct (step (LClose None) w2) as [w3|] eqn:H3; [|done].
  injection H2 as <-. injection H3 as <-.
  cbn [st sending reader thr outcomes
       assigned received send_written].
  destruct (view_Close None st1) as [Hv3 Hcalls3].
  apply view_eq_fields in Hv3 as (_ & Hp3 & Hc3 & Hsh3 & _ & _).
  cbn in Hp3, Hc3, Hsh3.
  set (st3 := (Close None st1).1) in *.
  set (w3 := {| st := st3; sending := None;
                reader := reader w;
                thr := <[q := Awaiting]>
                                (<[q := InSend]> (thr w));
                outcomes := outcomes w ++ [];
                assigned := assigned w ++ [0];
                received := received w |}).
  assert (Hw3 : reachable w3).
  { apply (reachable_step (LClose None)
             {| st := st1; sending := None;
                reader := reader w;
                thr := <[q := Awaiting]>
                                (<[q := InSend]> (thr w));
                outcomes := outcomes w ++ [];
                assigned := assigned w ++ [0];
                received := received w |}); [|reflexivity].
    apply (reachable_step (LWritten None) w1); [|reflexivity].
    apply (reachable_step (LGo q "" (xxcode.VInt 0)) w);
      [exact Hw | exact H1]. }
  (* the registration of [p] fails *)
  set (p := fresh (dom (calls st3))).
  assert (Hp : calls st3 !! p = None).
  { apply not_elem_of_dom. apply is_fresh. }
  assert (Hpq : p <> q).
  { intros ->. rewrite Hcalls3 in Hp. rewrite Hp in Hq1. by destruct Hq1. }
  pose proof (view_send_register p "Bar.Timeout" (xxcode.VInt 1) st3) as Hr.
  cbv zeta in Hr. rewrite Hc3 in Hr. cbn [orb] in Hr.
  destruct (send_register p
              (new_Call p "Bar.Timeout" (xxcode.VInt 1) st3))
    as [st4 r] eqn:E4. cbn [fst snd] in Hr. destruct Hr as [-> Hv4].
  pose proof Hv4 as Hv4'.
  apply view_eq_fields in Hv4' as (_ & Hp4 & _ & _ & Hi4 & _).
  cbn in Hp4, Hi4.
  set (w4 := {| st := st4; sending := None;
                reader := reader w3;
                thr := <[p := Awaiting]> (thr w3);
                outcomes := outcomes w3;
                assigned := assigned w3;
                received := received w3 |}).
  assert (H4 : step (LGo p "Bar.Timeout" (xxcode.VInt 1)) w3
               = Some w4).
  { unfold w3 at 1. cbn [step st sending].
    by rewrite Hp, E4. }
  assert (Hseq4 : Seq_of st4 p = 0).
  { apply Seq_of_ids. rewrite Hv4. cbn. by rewrite lookup_insert_eq. }
  assert (Hzero : pending (cl st4) !! 0 = Some q).
  { by rewrite Hp4, Hp3, Hp1, lookup_insert_eq. }
  eexists w3, w4, _, p, q. split_and!; try done.
  - unfold w3. cbn [st]. by rewrite Hp3, Hp1, lookup_insert_eq.
  - unfold w4 at 1. cbn [step thr st].
    rewrite lookup_insert_eq, Hseq4. reflexivity.
  - cbn. apply lookup_delete_eq.
  - cbn. by rewrite Hzero.
Qed.

End Wrap.

(** * Further properties of the code *)

(** ** The registry *)

Section RegistryMore.
Context `{GoLib}.
Import reflect service server.

Lemma accepted_tests (m : reflect.Method) :
  accepted m = true <->
  NumIn m = 3 /\ NumOut m = 1 /\ Out_ m 0 = errorType /\
  isExportedOrBuiltinType (In_ m 1) = true /\
  isExportedOrBuiltinType (In_ m 2) = true.
Proof.
  unfold accepted. rewrite !andb_true_iff, !Z.eqb_eq, bool_decide_eq_true.
  tauto.
Qed.

(** [findService] on an identifier that splits at its last dot. *)
Lemma findService_split (s : Server) (sn mn : string) :
  has_dot mn = false ->
  findService s (sn +:+ "." +:+ mn) =
    match serviceMap s !! sn with
    | None => (None, None, Some ("rpc server: can't find service " +:+ sn))
    | Some svc =>
        match Method svc !! mn with
        | None => (Some svc, None, Some ("rpc server: can't find method " +:+ mn))
        | Some mtype => (Some svc, Some mtype, None)
        end
    end.
Proof.
  intros Hmn. unfold findService.
  destruct (split_at_last_dot sn mn Hmn) as (Hidx & Hsn & Hmn').
  cbv zeta in Hidx, Hsn, Hmn'. rewrite Hsn, Hmn', Hidx.
  assert ((Z.of_nat (String.length sn) <? 0) = false) as -> by lia.
  reflexivity.
Qed.

(** What [Register] does to the map: nothing, or one insertion under a
    name that was free. *)
Lemma Register_serviceMap (s s' : Server) (rcvr : Receiver) (e : error) :
  Register s rcvr = inl (s', e) ->
  exists svc,
    NewService rcvr = inl svc /\
    ((e = None /\ serviceMap s !! SName svc = None /\
      serviceMap s' = <[SName svc := svc]> (serviceMap s)) \/
     (e <> None /\ is_Some (serviceMap s !! SName svc) /\ s' = s)).
Proof.
  unfold Register, LoadOrStore.
  destruct (NewService rcvr) as [svc|] eqn:Hnew; [|done].
  destruct (serviceMap s !! SName svc) as [old|] eqn:Hold.
  - intros [= <- <-]. exists svc. split; [done|]. right.
    split_and!; [done | eauto | by destruct s].
  - intros [= <- <-]. exists svc. split; [done|]. by left.
Qed.

End RegistryMore.

(** X1. [RegisterMethods], on a method set with distinct names: the map
    holds an entry under a name exactly for the method of that name that has
    three inputs and one output, the output being [error], and whose two
    parameter types pass [isExportedOrBuiltinType]; the entry holds the
    method and its two parameter types, with a call count of zero. *)
Theorem RegisterMethods_accepts_iff `{GoLib}
    (ms : list reflect.Method) (n : string) (mt : service.MethodType) :
  NoDup (reflect.MName <$> ms) ->
  service.RegisterMethods ms !! n = Some mt <->
  exists m,
    m ∈ ms /\ reflect.MName m = n /\
    reflect.NumIn m = 3 /\ reflect.NumOut m = 1 /\
    reflect.Out_ m 0 = reflect.errorType /\
    service.isExportedOrBuiltinType (reflect.In_ m 1) = true /\
    service.isExportedOrBuiltinType (reflect.In_ m 2) = true /\
    mt = {| service.Method_ := m; service.ArgType := reflect.In_ m 1;
            service.ReplyType := reflect.In_ m 2; service.NumCalls := 0 |}.
Proof.
  intros Hnd. split.
  - intros (m & Hin & Hn & Hacc & ->)%RegisterMethods_sound.
    apply accepted_tests in Hacc. exists m. by split_and!; try tauto.
  - intros (m & Hin & <- & H1 & H2 & H3 & H4 & H5 & ->).
    rewrite (RegisterMethods_complete ms m Hnd Hin).
    assert (service.accepted m = true) as -> by (apply accepted_tests; tauto).
    done.
Qed.

Lemma RegisterMethods_accepts_iff_witness :
  let T := reflect.Defined "main" "T" reflect.StructLit in
  let Sum := {| reflect.MName := "Sum";
                reflect.In := [T; reflect.intType;
                               reflect.PtrTo reflect.intType];
                reflect.Out := [reflect.errorType] |} in
  let sum := {| reflect.MName := "sum2";
                reflect.In := [T; reflect.intType];
                reflect.Out := [reflect.errorType] |} in
  is_Some (@service.RegisterMethods ascii_lib [Sum; sum] !! "Sum") /\
  @service.RegisterMethods ascii_lib [Sum; sum] !! "sum2" = None.
Proof.
  intros T Sum sum.
  assert (Hnd : NoDup (reflect.MName <$> [Sum; sum])).
  { cbn. apply NoDup_cons. split; [|apply NoDup_singleton].
    intros Hin%list_elem_of_singleton. discriminate Hin. }
  split.
  - eexists.
    apply (proj2 (@RegisterMethods_accepts_iff ascii_lib [Sum; sum] "Sum" _ Hnd)).
    exists Sum. split_and!; try reflexivity.
    apply list_elem_of_here.
  - destruct (@service.RegisterMethods ascii_lib [Sum; sum] !! "sum2")
      as [mt|] eqn:Hl; [|done].
    apply (proj1 (@RegisterMethods_accepts_iff ascii_lib [Sum; sum] "sum2" mt Hnd))
      in Hl as (m & Hm & Hn & Hin & _).
    apply elem_of_cons in Hm as [->|Hm]; [discriminate Hn|].
    apply list_elem_of_singleton in Hm as ->. discriminate Hin.
Defined.

(** X2. A receiver registered without error can be found: for a method of
    its method set (names distinct, no dot in the name), [findService] on
    ["<service>.<method>"] returns the service and the entry of the method
    when the method passes the tests of [RegisterMethods], and the
    can't-find-method error when it does not. The service name is the name
    of the type the receiver points to. *)
Theorem Register_then_findService `{GoLib}
    (s s' : server.Server) (rcvr : reflect.Receiver) (m : reflect.Method) :
  server.Register s rcvr = inl (s', None) ->
  NoDup (reflect.MName <$> reflect.rMethods rcvr) ->
  m ∈ reflect.rMethods rcvr ->
  has_dot (reflect.MName m) = false ->
  exists svc,
    service.NewService rcvr = inl svc /\
    service.SName svc = reflect.Name (reflect.IndirectType (reflect.rType rcvr)) /\
    server.findService s' (service.SName svc +:+ "." +:+ reflect.MName m) =
      if service.accepted m
      then (Some svc, Some (service.entry m), None)
      else (Some svc, None,
            Some ("rpc server: can't find method " +:+ reflect.MName m)).
Proof.
  intros Hreg Hnd Hin Hdot.
  destruct (Register_serviceMap s s' rcvr None Hreg)
    as (svc & Hnew & [(_ & _ & Hmap) | (Hne & _)]); [|done].
  exists svc. split; [done|].
  assert (Hsvc : service.SName svc
                 = reflect.Name (reflect.IndirectType (reflect.rType rcvr))
                 /\ service.Method svc
                    = service.RegisterMethods (reflect.rMethods rcvr)).
  { unfold service.NewService in Hnew.
    destruct (negb _); [done|]. by injection Hnew as <-. }
  destruct Hsvc as [Hname Hmeth]. split; [done|].
  rewrite (findService_split s' _ _ Hdot), Hmap, lookup_insert_eq, Hmeth.
  rewrite (RegisterMethods_complete _ m Hnd Hin).
  by destruct (service.accepted m).
Qed.

Lemma Register_then_findService_witness :
  let Foo := reflect.Defined "main" "Foo" reflect.StructLit in
  let Sum := {| reflect.MName := "Sum";
                reflect.In := [reflect.PtrTo Foo; reflect.intType;
                               reflect.PtrTo reflect.intType];
                reflect.Out := [reflect.errorType] |} in
  let rcvr := {| reflect.rType := reflect.PtrTo Foo;
                 reflect.rMethods := [Sum] |} in
  exists s' svc,
    @server.Register ascii_lib server.NewServer rcvr = inl (s', None) /\
    server.findService s' "Foo.Sum" =
      (Some svc, Some (@service.entry Sum), None).
Proof.
  intros Foo Sum rcvr.
  destruct (@server.Register ascii_lib server.NewServer rcvr)
    as [[s' [e|]]|] eqn:Hreg; try (by vm_compute in Hreg).
  assert (Hnd : NoDup (reflect.MName <$> reflect.rMethods rcvr))
    by apply NoDup_singleton.
  destruct (@Register_then_findService ascii_lib server.NewServer s' rcvr Sum
              Hreg Hnd (list_elem_of_here _ _) eq_refl)
    as (svc & Hnew & Hname & Hfind).
  exists s', svc. split; [done|].
  assert (Hn : service.SName svc = "Foo") by (rewrite Hname; reflexivity).
  rewrite Hn in Hfind. exact Hfind.
Defined.

(** X3. [Register] never breaks a lookup: whatever it returns, an
    identifier that [findService] resolved before resolves to the same
    service and method after. *)
Theorem Register_keeps_lookups `{GoLib}
    (s s' : server.Server) (rcvr : reflect.Receiver) (e : error)
    (serviceMethod : string) (svc : service.Service)
    (mt : service.MethodType) :
  server.Register s rcvr = inl (s', e) ->
  server.findService s serviceMethod = (Some svc, Some mt, None) ->
  server.findService s' serviceMethod = (Some svc, Some mt, None).
Proof.
  intros Hreg Hfind.
  destruct (Register_serviceMap s s' rcvr e Hreg)
    as (new & _ & [(_ & Hfree & Hmap) | (_ & _ & ->)]); [|done].
  unfold server.findService in *.
  destruct (LastIndex serviceMethod "." <? 0); [done|].
  destruct (server.serviceMap s !! slice_to serviceMethod
              (LastIndex serviceMethod ".")) as [old|] eqn:Hold; [|done].
  rewrite Hmap, lookup_insert_ne, Hold; [done|].
  intros Heq. rewrite Heq in Hfree. congruence.
Qed.

Lemma Register_keeps_lookups_witness :
  let Foo := reflect.Defined "main" "Foo" reflect.StructLit in
  let Bar := reflect.Defined "main" "Bar" reflect.StructLit in
  let Sum := {| reflect.MName := "Sum";
                reflect.In := [reflect.PtrTo Foo; reflect.intType;
                               reflect.PtrTo reflect.intType];
                reflect.Out := [reflect.errorType] |} in
  let foo := {| reflect.rType := reflect.PtrTo Foo;
                reflect.rMethods := [Sum] |} in
  let bar := {| reflect.rType := reflect.PtrTo Bar;
                reflect.rMethods := [] |} in
  exists s1 s2 svc,
    @server.Register ascii_lib server.NewServer foo = inl (s1, None) /\
    @server.Register ascii_lib s1 bar = inl (s2, None) /\
    server.findService s2 "Foo.Sum" =
      (Some svc, Some (@service.entry Sum), None).
Proof.
  intros Foo Bar Sum foo bar.
  destruct (@server.Register ascii_lib server.NewServer foo)
    as [[s1 [e|]]|] eqn:H1; try (by vm_compute in H1).
  destruct (@server.Register ascii_lib s1 bar)
    as [[s2 [e|]]|] eqn:H2;
    try (vm_compute in H1; injection H1 as <-; by vm_compute in H2).
  destruct (server.findService s1 "Foo.Sum") as [[[svc|] [mt|]] [e|]] eqn:Hf;
    try (vm_compute in H1; injection H1 as <-; by vm_compute in Hf).
  assert (Hmt : mt = @service.entry Sum).
  { vm_compute in H1. injection H1 as <-. vm_compute in Hf.
    by injection Hf as _ <-. }
  subst mt. exists s1, s2, svc. split_and!; try done.
  exact (@Register_keeps_lookups ascii_lib s1 s2 bar None "Foo.Sum" svc _ H2 Hf).
Defined.

(** ** The read loop *)

(** X4. [readRequest] panics in one situation only, on any codec: a header
    was read, its method was found, and [NewArgv] or [NewReplyv] panics on
    the method's types (for [NewReplyv]: the reply type has no element
    type). A failed lookup never reaches them. *)
Theorem readRequest_panics_iff {C : Type} `{xxcode.Code C}
    (s : server.Server) (cc : C) :
  server.readRequest s cc = None <->
  exists cc1 h svc mt,
    xxcode.ReadHeader cc = (cc1, inl h) /\
    server.findService s (xxcode.ServiceMethod h) = (svc, Some mt, None) /\
    (service.NewArgv mt = None \/ reflect.Elem (service.ReplyType mt) = None).
Proof.
  unfold server.readRequest, server.readRequestHeader.
  destruct (xxcode.ReadHeader cc) as [cc1 [h|e]] eqn:Hh.
  2: { split; [done|]. by intros (? & ? & ? & ? & [=] & _). }
  assert (Hmt : forall svc mt e,
            server.findService s (xxcode.ServiceMethod h) = (svc, mt, e) ->
            (e = None <-> is_Some mt)).
  { unfold server.findService. intros svc mt e.
    destruct (_ <? 0);
      [|destruct (server.serviceMap s !! _) as [sv|];
        [destruct (service.Method sv !! _)|]];
      intros [= <- <- <-];
      (split; [intros ?; simplify_eq; eauto | intros [? ?]; by simplify_eq]). }
  destruct (server.findService s (xxcode.ServiceMethod h))
    as [[svc mt] e] eqn:Hf.
  pose proof (Hmt svc mt e eq_refl) as Hshape. clear Hmt.
  assert (Hback : (exists cc2 h0 svc0 mt0,
              (cc1, @inl _ string h) = (cc2, inl h0) /\
              server.findService s (xxcode.ServiceMethod h0)
                = (svc0, Some mt0, None) /\
              (service.NewArgv mt0 = None \/
               reflect.Elem (service.ReplyType mt0) = None)) ->
            exists mt0, mt = Some mt0 /\ e = None /\
              (service.NewArgv mt0 = None \/
               reflect.Elem (service.ReplyType mt0) = None)).
  { intros (cc2 & h0 & svc0 & mt0 & Heq & Hfind & Hor).
    injection Heq as <- <-. rewrite Hf in Hfind. injection Hfind as -> -> ->.
    eauto. }
  destruct e as [e|].
  { split; [done|]. by intros (? & _ & [=] & _)%Hback. }
  destruct mt as [mt|]; [|by destruct (proj1 Hshape eq_refl)].
  assert (Hreply : service.NewReplyv mt = None
                   <-> reflect.Elem (service.ReplyType mt) = None).
  { unfold service.NewReplyv.
    destruct (reflect.Elem (service.ReplyType mt)); by cbn. }
  destruct (service.NewArgv mt) as [av|] eqn:Ha,
           (service.NewReplyv mt) as [rv|] eqn:Hr.
  - destruct (xxcode.ReadBody cc1 _) as [cc2 [body err2]].
    split; [done|].
    intros (mt0 & [= <-] & _ & [Hno|Hno])%Hback; [congruence|].
    apply Hreply in Hno. congruence.
  - split; [|done]. intros _. exists cc1, h, svc, mt.
    split_and!; try done. right. by apply Hreply.
  - split; [|done]. intros _. exists cc1, h, svc, mt.
    split_and!; try done. by left.
  - split; [|done]. intros _. exists cc1, h, svc, mt.
    split_and!; try done. by left.
Qed.

(** X5. On a connection that carries finitely many frames, [serveCode]
    ends: with one unit of fuel more than there are frames to read, the loop
    has left through its [break] or a panic. *)
Theorem serveCode_ends (s : server.Server) (cc : xxcode.FrameCode)
    (opt : common.Option) :
  server.serveCode (S (length (xxcode.incoming cc))) s cc opt
    <> server.OutOfFuel.
Proof.
  unfold server.serveCode. apply serveCode_loop_terminates. lia.
Qed.

Lemma readRequest_resolved (s : server.Server) (h : xxcode.Header)
    (b : xxcode.Body) (r : server.request) rest out cl :
  server.resolved s h b = Some r ->
  server.readRequest s
    {| xxcode.incoming := xxcode.FHeader h :: xxcode.FBody b :: rest;
       xxcode.outgoing := out; xxcode.closed := cl |} =
  Some ({| xxcode.incoming := rest; xxcode.outgoing := out;
           xxcode.closed := cl |}, (Some r, None)).
Proof.
  unfold server.resolved, server.readRequest, server.readRequestHeader.
  cbn [xxcode.ReadHeader xxcode.ReadBody xxcode.FrameCode_Code
       xxcode.frame_ReadHeader xxcode.incoming xxcode.outgoing xxcode.closed].
  destruct (server.findService s (xxcode.ServiceMethod h))
    as [[svc [mt|]] [e|]]; try done.
  destruct (service.NewArgv mt), (service.NewReplyv mt); try done.
  unfold xxcode.frame_ReadBody. cbn [xxcode.incoming].
  destruct (xxcode.decodes_into b _); [|done].
  by intros [= <-].
Qed.

Lemma serveCode_loop_resolved (s : server.Server) (timeout : Z)
    (msgs : list (xxcode.Header * xxcode.Body))
    (reqs : list server.request) :
  Forall2 (fun hb r => server.resolved s hb.1 hb.2 = Some r) msgs reqs ->
  forall fuel out handlers,
    (length msgs < fuel)%nat ->
    server.serveCode_loop fuel s
      {| xxcode.incoming := server.frames_of msgs; xxcode.outgoing := out;
         xxcode.closed := false |} timeout handlers =
    server.Served
      {| xxcode.incoming := []; xxcode.outgoing := out; xxcode.closed := true |}
      (handlers ++ map (fun r => (r, timeout)) reqs).
Proof.
  induction 1 as [|[h b] r msgs reqs Hr _ IH]; intros fuel out handlers Hfuel.
  - destruct fuel as [|fuel]; [cbn in Hfuel; lia|].
    cbn. by rewrite app_nil_r.
  - destruct fuel as [|fuel]; [cbn in Hfuel; lia|].
    cbn [server.serveCode_loop server.frames_of flat_map app fst snd].
    rewrite (readRequest_resolved s h b r _ _ _ Hr).
    fold (server.frames_of msgs).
    rewrite IH by (cbn in Hfuel; lia).
    cbn [map]. by rewrite <- app_assoc.
Qed.

(** X6. A connection that carries well-formed requests, each a header
    whose method is found followed by a body that decodes into the argument
    type of the method: [serveCode] starts one handler per request, in the
    order of the stream, each with the decoded body as argument and the
    option's [HandleTimeout]; it writes nothing itself, and at the end of
    the stream it closes the codec. *)
Theorem serveCode_serves_in_order (s : server.Server) (opt : common.Option)
    (msgs : list (xxcode.Header * xxcode.Body))
    (reqs : list server.request) (out : list xxcode.Frame) (fuel : nat) :
  Forall2 (fun hb r => server.resolved s hb.1 hb.2 = Some r) msgs reqs ->
  (length msgs < fuel)%nat ->
  server.serveCode fuel s
    {| xxcode.incoming := server.frames_of msgs; xxcode.outgoing := out;
       xxcode.closed := false |} opt =
  server.Served
    {| xxcode.incoming := []; xxcode.outgoing := out; xxcode.closed := true |}
    (map (fun r => (r, common.HandleTimeout opt)) reqs).
Proof.
  intros Hres Hfuel. unfold server.serveCode.
  by rewrite (serveCode_loop_resolved s _ msgs reqs Hres fuel out []).
Qed.

Lemma serveCode_serves_in_order_witness :
  let Foo := reflect.Defined "main" "Foo" reflect.StructLit in
  let Sum := {| reflect.MName := "Sum";
                reflect.In := [reflect.PtrTo Foo; reflect.intType;
                               reflect.PtrTo reflect.intType];
                reflect.Out := [reflect.errorType] |} in
  let rcvr := {| reflect.rType := reflect.PtrTo Foo;
                 reflect.rMethods := [Sum] |} in
  let mt := @service.entry Sum in
  let svc := {| service.SName := "Foo"; service.Typ := reflect.PtrTo Foo;
                service.Rcvr := rcvr; service.Method := {[ "Sum" := mt ]} |} in
  let s := {| server.serviceMap := {[ "Foo" := svc ]} |} in
  let h i := {| xxcode.ServiceMethod := "Foo.Sum"; xxcode.SeqId := i;
                xxcode.Error := "" |} in
  let r i b := {| server.head := h i; server.argv := Some b;
                  server.replyv :=
                    Some (reflect.PtrToValue (reflect.Zero reflect.intType));
                  server.mtype := Some mt; server.svc := Some svc |} in
  server.serveCode 3 s
    {| xxcode.incoming :=
         [xxcode.FHeader (h 1); xxcode.FBody (xxcode.VInt 7);
          xxcode.FHeader (h 2); xxcode.FBody (xxcode.VInt 8)];
       xxcode.outgoing := []; xxcode.closed := false |}
    common.DefaultOption =
  server.Served
    {| xxcode.incoming := []; xxcode.outgoing := []; xxcode.closed := true |}
    [(r 1 (xxcode.VInt 7), 0); (r 2 (xxcode.VInt 8), 0)].
Proof.
  intros Foo Sum rcvr mt svc s h r.
  apply (serveCode_serves_in_order s common.DefaultOption
           [(h 1, xxcode.VInt 7); (h 2, xxcode.VInt 8)]
           [r 1 (xxcode.VInt 7); r 2 (xxcode.VInt 8)] [] 3).
  - repeat constructor.
  - cbn. lia.
Defined.

(** X7. [ServeConn] serves a connection only after an option document that
    decodes, carries the magic number [0x3bef5c] and names the codec
    "application/gob". In every other case (the declared but unregistered
    "application/json" among them) it reads no frame, writes nothing and
    closes the connection. *)
Theorem ServeConn_handshake (fuel : nat) (s : server.Server)
    (decoded : common.Option + string) (conn : xxcode.FrameCode) :
  (forall opt, decoded = inl opt ->
     common.OptMagicNumber opt = 0x3bef5c /\
     common.CodeType opt = "application/gob" ->
     server.ServeConn fuel s decoded conn =
       match server.serveCode fuel s conn opt with
       | server.Served cc handlers => server.Served (xxcode.frame_Close cc) handlers
       | r => r
       end)
  /\
  ((forall opt, decoded = inl opt ->
      common.OptMagicNumber opt <> 0x3bef5c \/
      common.CodeType opt <> "application/gob") ->
   server.ServeConn fuel s decoded conn =
     server.Served
       {| xxcode.incoming := xxcode.incoming conn;
          xxcode.outgoing := xxcode.outgoing conn;
          xxcode.closed := true |} []).
Proof.
  unfold server.ServeConn, xxcode.NewCodeFuncMap. split.
  - intros opt -> [Hm Hc]. rewrite Hm, Hc.
    change (negb (0x3bef5c =? common.MagicNumber)) with false. cbv iota.
    change "application/gob" with xxcode.Type_Gob.
    by rewrite lookup_singleton_eq.
  - intros Hbad. destruct decoded as [opt|e]; [|done].
    destruct (Hbad opt eq_refl) as [Hm|Hc].
    + apply Z.eqb_neq in Hm. change (common.MagicNumber) with 0x3bef5c.
      by rewrite Hm.
    + destruct (negb _); [done|].
      rewrite lookup_singleton_ne; [done|]. unfold xxcode.Type_Gob. congruence.
Qed.

Lemma ServeConn_handshake_witness :
  let conn := {| xxcode.incoming :=
                   [xxcode.FHeader {| xxcode.ServiceMethod := "Foo.Sum";
                                      xxcode.SeqId := 1; xxcode.Error := "" |};
                    xxcode.FBody (xxcode.VInt 7)];
                 xxcode.outgoing := []; xxcode.closed := false |} in
  let json := {| common.OptMagicNumber := 0x3bef5c;
                 common.CodeType := "application/json";
                 common.ConnectTimeout := 0; common.HandleTimeout := 0 |} in
  server.ServeConn 3 server.NewServer (inl json) conn =
    server.Served
      {| xxcode.incoming := xxcode.incoming conn; xxcode.outgoing := [];
         xxcode.closed := true |} [].
Proof.
  intros conn json.
  apply (proj2 (ServeConn_handshake 3 server.NewServer (inl json) conn)).
  intros opt [= <-]. right. discriminate.
Defined.

(** ** [handleRequest], every run *)

Section HandleMore.
Context `{GoLib}.
Import xxcode server.

Ltac run_cases Hrun :=
  repeat match type of Hrun with
         | handleRequest_run _ ?ls _ = Some _ =>
             is_var ls; destruct ls as [|[] ls];
             cbn [handleRequest_run handleRequest_step parent worker
                  hhead written handleRequest_init] in Hrun;
             try discriminate Hrun
         | context [match ?e with _ => _ end] =>
             is_var e; destruct e;
             cbn [handleRequest_run handleRequest_step parent worker
                  hhead written handleRequest_init] in Hrun;
             try discriminate Hrun
         end.

(** The states of the runs: what has been written, and where the worker is
    once the timer has fired. *)
Lemma handleRequest_runs (h : Header) (timeout : Z) ls st :
  handleRequest_run timeout ls (handleRequest_init h timeout) = Some st ->
  (written st = [] \/ written st = [timeout_response h timeout] \/
   exists err reply, written st = [worker_response h err reply]) /\
  (In HTimer ls ->
   timeout <> 0 /\
   (worker st = WCall \/ exists err reply, worker st = WSendCalled err reply) /\
   (written st = [] \/ written st = [timeout_response h timeout])).
Proof.
  intros Hrun. unfold handleRequest_init in Hrun.
  assert (Hforms : forall (w : list (Header * Body)),
            w = [] \/ w = [timeout_response h timeout] \/
            (exists e, w = [(with_Error h e, invalidRequest)]) \/
            (exists reply, w = [(h, reply)]) ->
            w = [] \/ w = [timeout_response h timeout] \/
            exists err reply, w = [worker_response h err reply]).
  { intros w [->|[->|[(e & ->)|(reply & ->)]]]; auto.
    - right; right. by exists (Some e), VInvalidRequest.
    - right; right. by exists None, reply. }
  destruct (timeout =? 0) eqn:Ht.
  - run_cases Hrun; injection Hrun as <-; cbn;
      (split; [apply Hforms; eauto 7
              | intros Hin; exfalso; intuition discriminate]).
  - apply Z.eqb_neq in Ht.
    run_cases Hrun; injection Hrun as <-; cbn;
      (split; [apply Hforms; eauto 7
              | intros Hin; first [ exfalso; intuition discriminate
                                  | split_and!; eauto 6 ]]).
Qed.

End HandleMore.

(** X8. In every run of [handleRequest], with or without a timeout, at most
    one response is written for the request, and it carries the sequence id
    and the method identifier of the request: the worker and the timer
    branch never both answer. *)
Theorem handleRequest_answers_once `{GoLib}
    (h : xxcode.Header) (timeout : Z)
    (ls : list server.HLabel) (st : server.HState) :
  server.handleRequest_run timeout ls (server.handleRequest_init h timeout)
    = Some st ->
  (length (server.written st) <= 1)%nat /\
  Forall (fun hb : xxcode.Header * xxcode.Body =>
            xxcode.SeqId hb.1 = xxcode.SeqId h /\
            xxcode.ServiceMethod hb.1 = xxcode.ServiceMethod h)
         (server.written st).
Proof.
  intros Hrun.
  destruct (handleRequest_runs h timeout ls st Hrun)
    as [[-> | [-> | (err & reply & ->)]] _]; cbn.
  - split; [lia | constructor].
  - split; [lia | by repeat constructor].
  - split; [lia|]. destruct err; by repeat constructor.
Qed.

Lemma handleRequest_answers_once_witness :
  let h := {| xxcode.ServiceMethod := "Bar.Timeout"; xxcode.SeqId := 5;
              xxcode.Error := "" |} in
  let ls := [server.HTimer; server.HMethodReturns None (xxcode.VInt 0);
             server.HTimeoutSend] in
  exists st,
    @server.handleRequest_run ascii_lib 1000000000 ls
      (server.handleRequest_init h 1000000000) = Some st /\
    (length (server.written st) <= 1)%nat.
Proof.
  intros h ls. eexists. split; [reflexivity|].
  apply (@handleRequest_answers_once ascii_lib h 1000000000 ls _ eq_refl).
Defined.

(** X9. Once the timer branch has been taken, the worker never gets past
    its send on [called]: it is still in the method or blocked on the
    channel, in every later state, and it writes no response. The only
    response a timed-out request gets is the timeout error. *)
Theorem handleRequest_worker_blocked_after_timeout `{GoLib}
    (h : xxcode.Header) (timeout : Z)
    (ls : list server.HLabel) (st : server.HState) :
  server.handleRequest_run timeout ls (server.handleRequest_init h timeout)
    = Some st ->
  In server.HTimer ls ->
  (server.worker st = server.WCall \/
   exists err reply, server.worker st = server.WSendCalled err reply) /\
  (server.written st = [] \/
   server.written st = [server.timeout_response h timeout]).
Proof.
  intros Hrun Hin.
  by destruct (handleRequest_runs h timeout ls st Hrun) as [_ (_ & ? & ?)].
Qed.

Lemma handleRequest_worker_blocked_after_timeout_witness :
  let h := {| xxcode.ServiceMethod := "Bar.Timeout"; xxcode.SeqId := 5;
              xxcode.Error := "" |} in
  let ls := [server.HTimer; server.HTimeoutSend;
             server.HMethodReturns None (xxcode.VInt 0)] in
  exists st,
    @server.handleRequest_run ascii_lib 1000000000 ls
      (server.handleRequest_init h 1000000000) = Some st /\
    server.parent st = server.PReturned /\
    (server.worker st = server.WCall \/
     exists err reply, server.worker st = server.WSendCalled err reply).
Proof.
  intros h ls. eexists. split; [reflexivity|]. split; [reflexivity|].
  apply (@handleRequest_worker_blocked_after_timeout ascii_lib h 1000000000
           ls _ eq_refl).
  cbn. tauto.
Defined.

(** ** The client, operation by operation *)

(** X10. [Close] on an open client returns what closing the codec returns
    and sets [closing], touching nothing else; a second [Close] returns
    "connection is closed" and changes nothing, whatever the codec would
    return; and the client is not available after the first. *)
Theorem Close_twice (e1 e2 : error) (st : client.State) :
  client.closing (client.cl st) = false ->
  let st1 := (client.Close e1 st).1 in
  (client.Close e1 st).2 = e1 /\
  client.closing (client.cl st1) = true /\
  client.seq (client.cl st1) = client.seq (client.cl st) /\
  client.pending (client.cl st1) = client.pending (client.cl st) /\
  client.shutdown (client.cl st1) = client.shutdown (client.cl st) /\
  client.calls st1 = client.calls st /\
  client.signals st1 = client.signals st /\
  client.IsAvailable st1 = false /\
  client.Close e2 st1 = (st1, Some "connection is closed").
Proof.
  intros Hopen. unfold client.Close, client.IsAvailable. rewrite Hopen.
  cbn. split_and!; try done. apply andb_false_r.
Qed.

Lemma Close_twice_witness :
  client.Close (Some "broken pipe")
    (client.Close None client.newClientCode).1 =
  ((client.Close None client.newClientCode).1, Some "connection is closed").
Proof.
  apply (Close_twice None (Some "broken pipe") client.newClientCode eq_refl).
Defined.

(** X11. [registerCall] succeeds exactly when [IsAvailable] holds; it then
    returns the current sequence id, stores the call under it, writes the id
    into the call and moves the counter on by one (modulo [2^64]). *)
Theorem registerCall_iff_IsAvailable (call : client.ptr) (st : client.State) :
  ((client.registerCall call st).2.2 = None
     <-> client.IsAvailable st = true) /\
  (client.IsAvailable st = true ->
   let st1 := (client.registerCall call st).1 in
   (client.registerCall call st).2 = (client.seq (client.cl st), None) /\
   client.pending (client.cl st1)
     = <[client.seq (client.cl st) := call]> (client.pending (client.cl st)) /\
   client.seq (client.cl st1) = (client.seq (client.cl st) + 1) mod 2 ^ 64 /\
   (forall c, client.calls st !! call = Some c ->
      client.Seq_of st1 call = client.seq (client.cl st))).
Proof.
  unfold client.registerCall, client.IsAvailable, client.Seq_of.
  destruct (client.closing (client.cl st)), (client.shutdown (client.cl st));
    cbn; split; try done; try (split; done).
  intros _. split_and!; try done.
  intros c Hc. by rewrite lookup_alter_eq, Hc.
Qed.

Lemma registerCall_iff_IsAvailable_witness :
  let st := client.new_Call 1%positive "Foo.Sum" (xxcode.VInt 1)
              client.newClientCode in
  (client.registerCall 1%positive st).2 = (1, None) /\
  client.Seq_of (client.registerCall 1%positive st).1 1%positive = 1.
Proof.
  intros st.
  destruct (proj2 (registerCall_iff_IsAvailable 1%positive st) eq_refl)
    as (Hret & _ & _ & Hseq).
  split; [exact Hret|]. by eapply Hseq.
Defined.

Section ClientMore.
Context `{GoLib}.
Import client.

(** [Go] on an available client, for a call at a fresh address: the state
    when [Write] has been called. *)
Lemma send_register_available (p : ptr) sm args (st : State) :
  IsAvailable st = true ->
  send_register p (new_Call p sm args st) =
    ({| cl := {| seq := wrap64 (seq (cl st) + 1);
                 pending := <[seq (cl st) := p]> (pending (cl st));
                 closing := closing (cl st); shutdown := shutdown (cl st);
                 header := {| xxcode.ServiceMethod := sm;
                              xxcode.SeqId := seq (cl st);
                              xxcode.Error := "" |} |};
        calls := <[p := {| Seq := seq (cl st); CServiceMethod := sm;
                           Args := args; Reply := None; CError := None |}]>
                   (calls st);
        signals := signals st |},
     Some (seq (cl st))).
Proof.
  unfold IsAvailable, send_register, registerCall, new_Call.
  cbn [cl calls signals].
  destruct (closing (cl st)), (shutdown (cl st)); try done. intros _. cbn.
  rewrite lookup_alter_eq, lookup_insert_eq. cbn.
  do 2 f_equal. apply map_eq. intros q.
  rewrite lookup_alter, !lookup_insert. by repeat case_decide.
Qed.

End ClientMore.

(** X12. The round trip of a call. On an available client, [Go] for a call
    at a fresh address, with a successful [Write], followed by the reader's
    iteration for the response with the call's sequence id: the pending map
    is as before the call, the counter has moved on by one, the call has its
    id and has been signalled once; with an empty header error it holds the
    decoded reply and no error, and with a header error it holds no reply
    and the error that [fmt.Errorf] builds from the header error taken as a
    format. *)
Theorem call_round_trip `{GoLib} (p : client.ptr) (serviceMethod : string)
    (args body : xxcode.Body) (herr : string) (st : client.State) :
  client.IsAvailable st = true ->
  client.calls st !! p = None ->
  client.pending (client.cl st) !! client.seq (client.cl st) = None ->
  let s := client.seq (client.cl st) in
  let st1 := client.Go p serviceMethod args None st in
  let h := {| xxcode.ServiceMethod := serviceMethod; xxcode.SeqId := s;
              xxcode.Error := herr |} in
  let r := client.receive_iter h (if String.eqb herr "" then Some body else None)
                               None st1 in
  r.2 = None /\
  client.pending (client.cl r.1) = client.pending (client.cl st) /\
  client.seq (client.cl r.1) = wrap64 (s + 1) /\
  client.signals r.1 = client.signals st ++ [p] /\
  client.calls r.1 !! p =
    Some {| client.Seq := s; client.CServiceMethod := serviceMethod;
            client.Args := args;
            client.Reply := if String.eqb herr "" then Some body else None;
            client.CError :=
              if String.eqb herr "" then None else Some (Errorf herr) |} /\
  (forall q, q <> p -> client.calls r.1 !! q = client.calls st !! q).
Proof.
  intros Hav Hp Hfree s st1 h r.
  unfold r, st1, client.Go, client.send.
  rewrite (send_register_available p serviceMethod args st Hav).
  cbn [client.send_written]. unfold client.receive_iter, client.removeCall.
  cbn [client.cl client.pending client.calls client.signals xxcode.SeqId
       xxcode.Error h].
  fold s. rewrite lookup_insert_eq, delete_insert_id by done.
  destruct (String.eqb herr "") eqn:Hh; cbn [negb];
    cbn [client.done client.assign_Error client.cl client.calls
         client.signals client.pending client.seq fst snd];
    (split_and!; try done;
     [ by rewrite ?lookup_alter_eq, lookup_insert_eq
     | intros q Hq; by rewrite ?lookup_alter_ne, lookup_insert_ne by done ]).
Qed.

Lemma call_round_trip_witness :
  let r := @client.receive_iter ascii_lib
             {| xxcode.ServiceMethod := "Foo.Sum"; xxcode.SeqId := 1;
                xxcode.Error := "" |} (Some (xxcode.VInt 3)) None
             (client.Go 1%positive "Foo.Sum" (xxcode.VInt 1) None
                        client.newClientCode) in
  client.calls r.1 !! 1%positive =
    Some {| client.Seq := 1; client.CServiceMethod := "Foo.Sum";
            client.Args := xxcode.VInt 1; client.Reply := Some (xxcode.VInt 3);
            client.CError := None |} /\
  client.pending (client.cl r.1) = ∅.
Proof.
  intros r.
  destruct (@call_round_trip ascii_lib 1%positive "Foo.Sum" (xxcode.VInt 1)
              (xxcode.VInt 3) "" client.newClientCode eq_refl eq_refl eq_refl)
    as (_ & Hpend & _ & _ & Hcall & _).
  split; [exact Hcall | exact Hpend].
Defined.

(** X13. A failed [Write]. On an available client, [Go] for a call at a
    fresh address whose [Write] fails: the call is taken out of the pending
    map again, holds the write error and is signalled once; the sequence id
    it was given is used up, the counter having moved on. *)
Theorem Go_write_failure (p : client.ptr) (serviceMethod : string)
    (args : xxcode.Body) (e : string) (st : client.State) :
  client.IsAvailable st = true ->
  client.calls st !! p = None ->
  client.pending (client.cl st) !! client.seq (client.cl st) = None ->
  let st1 := client.Go p serviceMethod args (Some e) st in
  client.pending (client.cl st1) = client.pending (client.cl st) /\
  client.seq (client.cl st1) = wrap64 (client.seq (client.cl st) + 1) /\
  client.signals st1 = client.signals st ++ [p] /\
  client.calls st1 !! p =
    Some {| client.Seq := client.seq (client.cl st);
            client.CServiceMethod := serviceMethod; client.Args := args;
            client.Reply := None; client.CError := Some e |}.
Proof.
  intros Hav Hp Hfree st1. unfold st1, client.Go, client.send.
  rewrite (send_register_available p serviceMethod args st Hav).
  unfold client.send_written, client.removeCall.
  cbn [client.cl client.pending client.calls client.signals].
  rewrite lookup_insert_eq, delete_insert_id by done.
  cbn [client.done client.assign_Error client.cl client.calls
       client.signals client.pending client.seq].
  split_and!; try done. by rewrite lookup_alter_eq, lookup_insert_eq.
Qed.

Lemma Go_write_failure_witness :
  let st1 := client.Go 1%positive "Foo.Sum" (xxcode.VInt 1)
               (Some "broken pipe") client.newClientCode in
  client.pending (client.cl st1) = ∅ /\
  client.seq (client.cl st1) = 2 /\
  client.signals st1 = [1%positive].
Proof.
  intros st1.
  destruct (Go_write_failure 1%positive "Foo.Sum" (xxcode.VInt 1)
              "broken pipe" client.newClientCode eq_refl eq_refl eq_refl)
    as (Hpend & Hseq & Hsig & _).
  split_and!; [exact Hpend | exact Hseq | exact Hsig].
Defined.

(** X14. A response nobody waits for. When the sequence id of a header is
    not in the pending map, the reader's iteration leaves the whole state as
    it is and signals nobody, and goes on with the error of [ReadBody]. This
    is the case of a response that arrives after [removeCall] took the entry
    out: the late response to a cancelled call is dropped. *)
Theorem late_response_dropped `{GoLib} (h : xxcode.Header)
    (body : option xxcode.Body) (berr : error) (st : client.State) :
  (client.pending (client.cl st) !! xxcode.SeqId h = None ->
   client.receive_iter h body berr st = (st, berr))
  /\
  client.receive_iter h body berr (client.removeCall (xxcode.SeqId h) st).1
    = ((client.removeCall (xxcode.SeqId h) st).1, berr).
Proof.
  assert (Habsent : forall st0,
            client.pending (client.cl st0) !! xxcode.SeqId h = None ->
            client.receive_iter h body berr st0 = (st0, berr)).
  { intros st0 Hno. unfold client.receive_iter.
    by rewrite (removeCall_absent _ _ Hno). }
  split; [apply Habsent|].
  apply Habsent. cbn. apply lookup_delete_eq.
Qed.

Lemma late_response_dropped_witness :
  let h := {| xxcode.ServiceMethod := "Foo.Sum"; xxcode.SeqId := 9;
              xxcode.Error := "" |} in
  @client.receive_iter ascii_lib h (Some (xxcode.VInt 3)) None
    client.newClientCode
    = (client.newClientCode, None).
Proof.
  intros h.
  apply (proj1 (@late_response_dropped ascii_lib h (Some (xxcode.VInt 3)) None
                  client.newClientCode)).
  reflexivity.
Defined.

Section TerminateMore.
Context `{GoLib}.
Import client.

(** The loop of [terminateCalls] over a list of entries: the calls it
    names get the error, the others are untouched. *)
Lemma terminate_loop_calls (err : error) (l : list (Z * ptr)) (st0 : State)
    (p : ptr) :
  calls (foldl (fun acc kv => done kv.2 (assign_Error kv.2 err acc)) st0 l)
    !! p =
  if decide (p ∈ l.*2) then set_Error err <$> calls st0 !! p
  else calls st0 !! p.
Proof.
  induction l as [|[k q] l IH] using rev_ind.
  - cbn. case_decide as Hin; [by apply elem_of_nil in Hin | done].
  - rewrite foldl_app, fmap_app. cbn [foldl fmap list_fmap snd].
    cbn [done assign_Error calls]. rewrite lookup_alter.
    destruct (decide (q = p)) as [->|Hne].
    + rewrite decide_True by (apply elem_of_app; right; apply list_elem_of_here).
      rewrite IH. case_decide; [|done].
      by destruct (calls st0 !! p).
    + rewrite IH.
      destruct (decide (p ∈ l.*2 ++ [q])) as [Hin|Hnin],
               (decide (p ∈ l.*2)) as [Hin'|Hnin']; try done.
      * apply elem_of_app in Hin as [Hin|Hq%list_elem_of_singleton];
          [done | congruence].
      * exfalso. apply Hnin, elem_of_app. by left.
Qed.

End TerminateMore.

(** X15. [terminateCalls] fails every pending call and no other: [shutdown]
    is set, the pending map, the counter and [closing] are unchanged; each
    call held in the pending map gets the error and is signalled; a call
    that is not in the pending map is left as it is and is not signalled. *)
Theorem terminateCalls_fails_pending (err : error) (st : client.State) :
  let st' := client.terminateCalls err st in
  client.shutdown (client.cl st') = true /\
  client.pending (client.cl st') = client.pending (client.cl st) /\
  client.seq (client.cl st') = client.seq (client.cl st) /\
  client.closing (client.cl st') = client.closing (client.cl st) /\
  (forall k p,
     client.pending (client.cl st) !! k = Some p ->
     client.calls st' !! p = client.set_Error err <$> client.calls st !! p /\
     (client.count p (client.signals st) < client.count p (client.signals st'))%nat)
  /\
  (forall p,
     (forall k, client.pending (client.cl st) !! k <> Some p) ->
     client.calls st' !! p = client.calls st !! p /\
     client.count p (client.signals st') = client.count p (client.signals st)).
Proof.
  intros st'.
  destruct (terminateCalls_effect err st) as (Hs & Hp & Hc & Hsh & Hsig & _).
  fold st' in Hs, Hp, Hc, Hsh, Hsig.
  split_and!; try done.
  - intros k p Hk.
    assert (Hin : p ∈ (map_to_list (client.pending (client.cl st))).*2).
    { apply list_elem_of_fmap. exists (k, p). split; [done|].
      by apply elem_of_map_to_list. }
    split.
    + unfold st', client.terminateCalls. rewrite terminate_loop_calls.
      by rewrite decide_True.
    + rewrite Hsig, count_app. pose proof (count_in p _ Hin). lia.
  - intros p Hp'.
    assert (Hnotin : p ∉ (map_to_list (client.pending (client.cl st))).*2).
    { intros [[k q] [-> Hin]]%list_elem_of_fmap.
      apply elem_of_map_to_list in Hin. by apply (Hp' k). }
    split.
    + unfold st', client.terminateCalls. rewrite terminate_loop_calls.
      by rewrite decide_False.
    + rewrite Hsig, count_app, (count_notin p _ Hnotin). lia.
Qed.

(** ** The client, every run *)

Section RunsMore.
Context `{GoLib}.
Import client.

Lemma IsAvailable_false (s : State) :
  IsAvailable s = false <-> closing (cl s) = true \/ shutdown (cl s) = true.
Proof.
  unfold IsAvailable. destruct (closing (cl s)), (shutdown (cl s)); cbn;
    intuition congruence.
Qed.

(** One step: the flags are never reset, and on a client that is not
    available nothing is registered and the pending map only shrinks. *)
Lemma step_unavailable (l : Label) (w w' : World) :
  step l w = Some w' ->
  (closing (cl (st w)) = true -> closing (cl (st w')) = true) /\
  (shutdown (cl (st w)) = true -> shutdown (cl (st w')) = true) /\
  (IsAvailable (st w) = false ->
   assigned w' = assigned w /\
   forall k p, pending (cl (st w')) !! k = Some p ->
               pending (cl (st w)) !! k = Some p).
Proof.
  intros Hstep. destruct l as [p sm args|werr|e|h body berr| |p|p|ccerr];
    cbn [step] in Hstep.
  - destruct (calls (st w) !! p) eqn:Hp; [done|].
    destruct (sending w) eqn:Hs; [done|].
    pose proof (view_send_register p sm args (st w)) as Hr. cbv zeta in Hr.
    destruct (send_register p (new_Call p sm args (st w)))
      as [st1 [seqId|]] eqn:E; cbn [fst snd] in Hr;
      destruct (closing (cl (st w)) || shutdown (cl (st w))) eqn:Hcl;
      destruct Hr as [Hr Hv]; try done; injection Hstep as <-;
      apply view_eq_fields in Hv as (_ & Hp' & Hc' & Hs' & _ & _);
      cbn [v_pending v_closing v_shutdown] in Hp', Hc', Hs'; cbn [st assigned]; rewrite Hp', Hc', Hs'.
    + split_and!; try done. intros Hav%IsAvailable_false.
      apply orb_false_iff in Hcl as [? ?]. destruct Hav; congruence.
    + by split_and!.
  - destruct (sending w) as [[p seqId]|] eqn:Hs; [|done].
    injection Hstep as <-. cbn [st assigned]. destruct werr as [e|].
    + destruct (view_send_written seqId e (st w)) as [Hv _].
      apply view_eq_fields in Hv as (_ & Hp' & Hc' & Hs' & _ & _).
      cbn [v_pending v_closing v_shutdown] in Hp', Hc', Hs'. rewrite Hp', Hc', Hs'.
      split_and!; try done. intros _. split; [done|].
      by intros k q [_ ?]%lookup_delete_Some.
    + by split_and!.
  - destruct (reader w); try done. injection Hstep as <-. by split_and!.
  - destruct (reader w); try done.
    destruct (view_receive_iter h body berr (st w)) as (Hv & _ & _).
    destruct (receive_iter h body berr (st w)) as [st1 err].
    injection Hstep as <-. cbn [fst] in Hv. cbn [st assigned].
    apply view_eq_fields in Hv as (_ & Hp' & Hc' & Hs' & _ & _).
    cbn [v_pending v_closing v_shutdown] in Hp', Hc', Hs'. rewrite Hp', Hc', Hs'.
    split_and!; try done. intros _. split; [done|].
    by intros k q [_ ?]%lookup_delete_Some.
  - destruct (reader w) as [|err|]; try done.
    destruct (sending w); [done|]. injection Hstep as <-.
    cbn [st assigned].
    destruct (terminateCalls_effect err (st w)) as (_ & Hp' & Hc' & Hs' & _).
    rewrite Hp', Hc', Hs'. by split_and!.
  - destruct (thr w !! p) as [[]|]; try done. injection Hstep as <-.
    cbn [st assigned removeCall cl pending closing shutdown fst].
    split_and!; try done. intros _. split; [done|].
    by intros k q [_ ?]%lookup_delete_Some.
  - destruct (thr w !! p) as [[]|]; try done.
    destruct (_ <? _)%nat; [|done]. injection Hstep as <-. by split_and!.
  - injection Hstep as <-. cbn [st assigned].
    destruct (view_Close ccerr (st w)) as [Hv _].
    apply view_eq_fields in Hv as (_ & Hp' & Hc' & Hs' & _ & _).
    cbn [v_pending v_closing v_shutdown] in Hp', Hc', Hs'. rewrite Hp', Hc', Hs'. by split_and!.
Qed.

End RunsMore.

(** X16. Being unavailable is for good. From a state in which [closing] or
    [shutdown] is set, along any run of the client: [IsAvailable] stays
    false, no call is registered any more (no sequence id is given), and
    the pending map only loses entries. *)
Theorem unavailable_for_good `{GoLib}
    (ls : list client.Label) (w w' : client.World) :
  client.run ls w = Some w' ->
  client.IsAvailable (client.st w) = false ->
  client.IsAvailable (client.st w') = false /\
  client.assigned w' = client.assigned w /\
  (forall k p,
     client.pending (client.cl (client.st w')) !! k = Some p ->
     client.pending (client.cl (client.st w)) !! k = Some p).
Proof.
  revert w. induction ls as [|l ls IH]; intros w; cbn.
  - by intros [= <-].
  - destruct (client.step l w) as [w1|] eqn:Hstep; [|done].
    intros Hrun Hav.
    destruct (step_unavailable l w w1 Hstep) as (Hc & Hs & Hun).
    destruct (Hun Hav) as [Hass Hpend].
    assert (Hav1 : client.IsAvailable (client.st w1) = false).
    { apply IsAvailable_false. apply IsAvailable_false in Hav. tauto. }
    destruct (IH w1 Hrun Hav1) as (? & Hass' & Hpend').
    split_and!; [done | congruence | eauto].
Qed.

Lemma unavailable_for_good_witness :
  let ls := [client.LGo 1%positive "Foo.Sum" (xxcode.VInt 1);
             client.LCancel 1%positive] in
  exists w0 w,
    @client.run ascii_lib [client.LClose None] client.init = Some w0 /\
    @client.run ascii_lib ls w0 = Some w /\
    client.IsAvailable (client.st w) = false /\
    client.assigned w = [].
Proof.
  intros ls.
  destruct (@client.run ascii_lib [client.LClose None] client.init) as [w0|] eqn:H0;
    [|by vm_compute in H0].
  destruct (@client.run ascii_lib ls w0) as [w|] eqn:H1;
    [|vm_compute in H0; injection H0 as <-; by vm_compute in H1].
  exists w0, w. split; [done|]. split; [done|].
  assert (Hav : client.IsAvailable (client.st w0) = false).
  { vm_compute in H0. by injection H0 as <-. }
  destruct (@unavailable_for_good ascii_lib ls w0 w H1 Hav) as (Hun & Hass & _).
  split; [exact Hun|]. rewrite Hass.
  vm_compute in H0. by injection H0 as <-.
Defined.

(** X17. The pending map and completion. In a state a client reaches, a
    call held in the pending map has not been completed: no signal, no
    outcome, as long as [terminateCalls] has not run. Once it has run, the
    client is shut down, nothing is being sent, and the calls left in the
    map are the ones it completed, each signalled exactly once. *)
Theorem pending_calls_status `{GoLib}
    (w : client.World) (k : Z) (p : client.ptr) :
  client.reachable w ->
  client.pending (client.cl (client.st w)) !! k = Some p ->
  match client.reader w with
  | client.Dead =>
      client.count p (client.signals (client.st w)) = 1%nat /\
      client.outcomes_of p w = [client.Terminated] /\
      client.shutdown (client.cl (client.st w)) = true /\
      client.sending w = None
  | _ =>
      client.count p (client.signals (client.st w)) = 0%nat /\
      client.outcomes_of p w = []
  end.
Proof.
  intros Hw%reachable_Inv Hk.
  destruct (client.reader w) eqn:Hr.
  - apply (client.inv_live w Hw ltac:(by rewrite Hr) k p Hk).
  - apply (client.inv_live w Hw ltac:(by rewrite Hr) k p Hk).
  - destruct (client.inv_dead w Hw Hr) as (Hs & Hsh & Hall).
    destruct (Hall k p Hk). by split_and!.
Qed.

Lemma pending_calls_status_witness :
  let ls := [client.LGo 1%positive "Foo.Sum" (xxcode.VInt 1);
             client.LWritten None;
             client.LReadHeaderFails "EOF";
             client.LTerminate] in
  exists w,
    @client.run ascii_lib ls client.init = Some w /\
    client.pending (client.cl (client.st w)) !! 1 = Some 1%positive /\
    client.count 1%positive (client.signals (client.st w)) = 1%nat.
Proof.
  intros ls.
  destruct (@client.run ascii_lib ls client.init) as [w|] eqn:Hrun;
    [|by vm_compute in Hrun].
  exists w. split; [done|].
  assert (Hk : client.pending (client.cl (client.st w)) !! 1 = Some 1%positive).
  { vm_compute in Hrun. by injection Hrun as <-. }
  assert (Hr : client.reader w = client.Dead).
  { vm_compute in Hrun. by injection Hrun as <-. }
  split; [exact Hk|].
  pose proof (@pending_calls_status ascii_lib w 1 1%positive (ex_intro _ ls Hrun) Hk) as Hst.
  rewrite Hr in Hst. apply Hst.
Defined.

Section HistoryMore.
Context `{GoLib}.
Import client.

Lemma history_same (w w' : World) (p : ptr) :
  signals (st w') = signals (st w) -> outcomes w' = outcomes w ->
  history_step w w' p.
Proof.
  intros Hs Ho. exists 0%nat, []. unfold outcomes_of.
  rewrite Hs, Ho, app_nil_r, Nat.add_0_r. split_and!; try done. by left.
Qed.

(** An entry leaves the pending map. *)
Lemma history_remove (w w' : World) (s : Z) (oc : Outcome) (sig : bool)
    (p : ptr) :
  let q := pending (cl (st w)) !! s in
  Inv w ->
  signals (st w') = signals (st w) ++ (if sig then olist q else []) ->
  outcomes w' = outcomes w ++ note q oc ->
  (sig = true -> reader w <> Dead /\ oc <> Cancelled) ->
  (sig = false -> oc = Cancelled) ->
  history_step w w' p.
Proof.
  intros q HI Hs Ho Hsig Hnosig. unfold history_step, outcomes_of.
  rewrite Hs, Ho, count_app, outs_app, outs_note.
  destruct (decide (q = Some p)) as [Hq|Hne].
  - destruct sig.
    + destruct (Hsig eq_refl) as [Hr Hoc].
      destruct (inv_live w HI Hr s p Hq) as [_ Hout].
      exists 1%nat, [oc]. rewrite count_olist, decide_True by done.
      split_and!; try done. right; right. split_and!; eauto.
    + rewrite (Hnosig eq_refl). exists 0%nat, [Cancelled].
      split_and!; try done. right; left. split_and!; try done.
      intros Hnone.
      assert (reader w = Dead \/ reader w <> Dead) as [Hr|Hr]
        by (destruct (reader w); auto).
      * destruct (inv_dead w HI Hr) as (_ & _ & Hall).
        destruct (Hall s p Hq) as [_ Hterm]. unfold outcomes_of in Hterm.
        congruence.
      * by destruct (inv_live w HI Hr s p Hq).
  - exists 0%nat, []. split_and!; try done; [|by left].
    destruct sig; [|done]. rewrite count_olist. by rewrite decide_False.
Qed.

Lemma step_history (l : Label) (w w' : World) (p : ptr) :
  Inv w -> step l w = Some w' -> history_step w w' p.
Proof.
  intros HI Hstep. destruct l as [p0 sm args|werr|e|h body berr| |p0|p0|ccerr];
    cbn [step] in Hstep.
  - destruct (calls (st w) !! p0) eqn:Hp; [done|].
    destruct (sending w) eqn:Hs; [done|].
    pose proof (view_send_register p0 sm args (st w)) as Hr. cbv zeta in Hr.
    destruct (send_register p0 (new_Call p0 sm args (st w)))
      as [st1 [seqId|]] eqn:E; cbn [fst snd] in Hr;
      destruct (closing (cl (st w)) || shutdown (cl (st w))) eqn:Hcl;
      destruct Hr as [Hr Hv]; try done; injection Hstep as <-;
      apply view_eq_fields in Hv as (_ & _ & _ & _ & _ & Hsig);
      cbn [v_signals] in Hsig.
    + by apply history_same.
    + destruct (inv_fresh w HI p0 (ids_fresh _ _ Hp)) as [Hc Ho].
      unfold history_step, outcomes_of. cbn [st outcomes].
      rewrite Hsig, count_app, count_single.
      destruct (decide (p0 = p)) as [->|Hne].
      * exists 1%nat, []. rewrite app_nil_r. split_and!; try done.
        right; right. split_and!; auto.
      * exists 0%nat, []. rewrite app_nil_r. split_and!; try done. by left.
  - destruct (sending w) as [[p0 seqId]|] eqn:Hs; [|done].
    injection Hstep as <-. destruct werr as [e|].
    + destruct (view_send_written seqId e (st w)) as [Hv _].
      apply view_eq_fields in Hv as (_ & _ & _ & _ & _ & Hsig).
      apply (history_remove w _ seqId SendFailed true); cbn; try done.
      intros _. split; [|done].
      intros Hr. destruct (inv_dead w HI Hr) as [? _]. congruence.
    + apply history_same; cbn; [done | by rewrite app_nil_r].
  - destruct (reader w); try done. injection Hstep as <-.
    by apply history_same.
  - destruct (reader w) eqn:Hr; try done.
    destruct (view_receive_iter h body berr (st w)) as (Hv & _ & _).
    destruct (receive_iter h body berr (st w)) as [st1 err].
    cbn [fst] in Hv. injection Hstep as <-.
    apply view_eq_fields in Hv as (_ & _ & _ & _ & _ & Hsig).
    apply (history_remove w _ (xxcode.SeqId h) (receive_outcome h berr) true);
      cbn; try done.
    intros _. split; [by rewrite Hr|].
    unfold receive_outcome. by destruct (negb _), (is_nil berr).
  - destruct (reader w) as [|err|] eqn:Hr; try done.
    destruct (sending w); [done|]. injection Hstep as <-.
    destruct (terminateCalls_effect err (st w)) as (_ & _ & _ & _ & Hsig & _).
    unfold history_step, outcomes_of. cbn [st outcomes].
    rewrite Hsig, count_app, outs_app, outs_all.
    assert (Hinj : forall k q, pending (cl (st w)) !! k = Some q ->
              v_ids (view (st w)) !! q = Some k).
    { intros k q Hk. by apply (inv_pending w HI). }
    assert ((exists k, pending (cl (st w)) !! k = Some p) \/
            (forall k, pending (cl (st w)) !! k <> Some p)) as [[k Hk]|Hno].
    { destruct (v_ids (view (st w)) !! p) as [k|] eqn:Hid.
      - destruct (pending (cl (st w)) !! k) as [q|] eqn:Hk.
        + destruct (decide (q = p)) as [->|Hne]; [eauto|].
          right. intros k' Hk'. pose proof (Hinj _ _ Hk'). congruence.
        + right. intros k' Hk'. pose proof (Hinj _ _ Hk'). congruence.
      - right. intros k' Hk'. pose proof (Hinj _ _ Hk'). congruence. }
    + rewrite (count_values_in p k _ _ Hinj Hk).
      destruct (inv_live w HI ltac:(by rewrite Hr) k p Hk) as [_ Hout].
      exists 1%nat, [Terminated]. split_and!; try done.
      right; right. split_and!; eauto.
    + rewrite (count_values_notin p _ Hno).
      exists 0%nat, []. split_and!; try done. by left.
  - destruct (thr w !! p0) as [[]|]; try done. injection Hstep as <-.
    apply (history_remove w _ (Seq_of (st w) p0) Cancelled false);
      cbn; try done. by rewrite app_nil_r.
  - destruct (thr w !! p0) as [[]|]; try done.
    destruct (_ <? _)%nat; [|done]. injection Hstep as <-.
    by apply history_same.
  - injection Hstep as <-.
    destruct (view_Close ccerr (st w)) as [Hv _].
    apply view_eq_fields in Hv as (_ & _ & _ & _ & _ & Hsig).
    by apply history_same.
Qed.

(** A call whose first outcome is a cancellation has no signal. *)
Lemma cancelled_first_run (ls : list Label) (w w' : World) :
  Inv w ->
  (forall p rest, outcomes_of p w = Cancelled :: rest ->
                  count p (signals (st w)) = 0%nat) ->
  run ls w = Some w' ->
  forall p rest, outcomes_of p w' = Cancelled :: rest ->
                 count p (signals (st w')) = 0%nat.
Proof.
  revert w. induction ls as [|l ls IH]; intros w HI HJ; cbn.
  - by intros [= <-].
  - destruct (step l w) as [w1|] eqn:Hstep; [|done].
    apply IH; [by apply (Inv_step l w)|].
    intros p rest Hout.
    destruct (step_history l w w1 p HI Hstep)
      as (c & o & Hc & Ho & [(-> & ->) | [(-> & -> & Hnone) | (-> & Hnil & Hx)]]).
    + rewrite app_nil_r in Ho. rewrite Hc, Nat.add_0_r.
      rewrite Ho in Hout. by apply (HJ p rest).
    + rewrite Hc, Nat.add_0_r. rewrite Ho in Hout.
      destruct (outcomes_of p w) as [|x xs] eqn:Hold; [by apply Hnone|].
      injection Hout as -> _. by apply (HJ p xs).
    + rewrite Ho, Hnil in Hout. cbn in Hout.
      destruct Hx as [->|(x & -> & Hx)]; [done|]. by injection Hout as -> _.
Qed.

End HistoryMore.

(** X18. A cancelled call is never completed afterwards. In a state a
    client reaches, a call whose first outcome is the removal of its entry
    by a cancellation has that outcome only, and no completion signal has
    been sent for it: neither a late response, nor a failed write, nor
    [terminateCalls] reaches a call that was abandoned. *)
Theorem cancelled_call_never_signalled `{GoLib}
    (w : client.World) (p : client.ptr) (rest : list client.Outcome) :
  client.reachable w ->
  client.outcomes_of p w = client.Cancelled :: rest ->
  rest = [] /\ client.count p (client.signals (client.st w)) = 0%nat.
Proof.
  intros Hw Hout. split.
  - destruct (client.inv_once w (reachable_Inv w Hw) p) as (_ & _ & Hgood).
    rewrite Hout in Hgood.
    destruct Hgood as [?|[[o Ho]|?]]; try done. by injection Ho as _ ->.
  - destruct Hw as [ls Hls].
    apply (cancelled_first_run ls client.init w Inv_init) with (rest := rest);
      done.
Qed.

Lemma cancelled_call_never_signalled_witness :
  let ls := [client.LGo 1%positive "Bar.Timeout" (xxcode.VInt 1);
             client.LWritten None;
             client.LCancel 1%positive;
             client.LReceive {| xxcode.ServiceMethod := "Bar.Timeout";
                                xxcode.SeqId := 1; xxcode.Error := "" |}
                             None None;
             client.LReadHeaderFails "EOF";
             client.LTerminate] in
  exists w,
    @client.run ascii_lib ls client.init = Some w /\
    client.outcomes_of 1%positive w = [client.Cancelled] /\
    client.count 1%positive (client.signals (client.st w)) = 0%nat.
Proof.
  intros ls.
  destruct (@client.run ascii_lib ls client.init) as [w|] eqn:Hrun;
    [|by vm_compute in Hrun].
  exists w. split; [done|].
  assert (Hout : client.outcomes_of 1%positive w = [client.Cancelled]).
  { vm_compute in Hrun. by injection Hrun as <-. }
  split; [exact Hout|].
  apply (@cancelled_call_never_signalled ascii_lib w 1%positive []
           (ex_intro _ ls Hrun) Hout).
Defined.

(** ** Options and the connection *)

Section DialMore.
Import client.

Lemma parseOptions_cases (opts : list (option common.Option)) :
  (parseOptions opts = (Some common.DefaultOption, None) /\
   (opts = [] \/ exists rest, opts = None :: rest)) \/
  (exists o rest, opts = Some o :: rest /\ rest <> [] /\
     parseOptions opts = (None, Some "number of options is more than 1")) \/
  (exists o, opts = [Some o] /\
     parseOptions opts =
       (Some {| common.OptMagicNumber := common.MagicNumber;
                common.CodeType :=
                  if String.eqb (common.CodeType o) ""
                  then xxcode.Type_Gob else common.CodeType o;
                common.ConnectTimeout := common.ConnectTimeout o;
                common.HandleTimeout := common.HandleTimeout o |}, None)).
Proof.
  destruct opts as [|[o|] rest]; [left; eauto | | left; eauto].
  destruct rest as [|o' rest].
  - right; right. by exists o.
  - right; left. by exists o, (o' :: rest).
Qed.

End DialMore.

(** X19. [parseOptions]. It returns no option and the error "number of
    options is more than 1" exactly when the first option is given and
    others follow, and it returns no other error. When it succeeds, the
    option it returns carries the protocol's magic number, whatever the
    caller wrote, and a codec name that is not empty; for a single option
    the two timeouts are the caller's, and with no option or a nil first
    option the result is [DefaultOption]. *)
Theorem parseOptions_result (opts : list (option common.Option)) :
  (client.parseOptions opts = (None, Some "number of options is more than 1")
   <-> exists o rest, opts = Some o :: rest /\ rest <> []) /\
  ((client.parseOptions opts).2 <> None ->
   client.parseOptions opts = (None, Some "number of options is more than 1"))
  /\
  (forall opt, client.parseOptions opts = (Some opt, None) ->
     common.OptMagicNumber opt = 0x3bef5c /\
     common.CodeType opt <> "" /\
     (forall o, opts = [Some o] ->
        common.ConnectTimeout opt = common.ConnectTimeout o /\
        common.HandleTimeout opt = common.HandleTimeout o /\
        (common.CodeType o <> "" -> common.CodeType opt = common.CodeType o)) /\
     (opts = [] \/ (exists rest, opts = None :: rest) ->
        opt = common.DefaultOption)).
Proof.
  destruct (parseOptions_cases opts)
    as [[Hp Hform] | [(o & rest & -> & Hrest & Hp) | (o & -> & Hp)]].
  - split_and!.
    + rewrite Hp. split; [done|].
      intros (o & rest & -> & _). destruct Hform as [?|[? ?]]; done.
    + by rewrite Hp.
    + rewrite Hp. intros opt [= <-]. split_and!; try done.
      intros o ->. destruct Hform as [?|[? ?]]; done.
  - split_and!.
    + rewrite Hp. split; [eauto | done].
    + done.
    + rewrite Hp. done.
  - split_and!.
    + rewrite Hp. split; [done|]. by intros (o' & rest & [= <- <-] & ?).
    + by rewrite Hp.
    + rewrite Hp. intros opt [= <-]. cbn. split_and!; try done.
      * destruct (String.eqb (common.CodeType o) "") eqn:E; [done|].
        by apply String.eqb_neq in E.
      * intros o' [= <-]. split_and!; try done.
        intros Hne%String.eqb_neq. by rewrite Hne.
      * intros [?|[? ?]]; done.
Qed.

Lemma parseOptions_result_witness :
  let o := {| common.OptMagicNumber := 7; common.CodeType := "";
              common.ConnectTimeout := 1000000000;
              common.HandleTimeout := 0 |} in
  exists opt,
    client.parseOptions [Some o] = (Some opt, None) /\
    common.OptMagicNumber opt = 0x3bef5c /\
    common.ConnectTimeout opt = 1000000000.
Proof.
  intros o.
  destruct (client.parseOptions [Some o]) as [[opt|] [e|]] eqn:Hp;
    try (by vm_compute in Hp).
  exists opt. split; [done|].
  destruct (proj2 (proj2 (parseOptions_result [Some o])) opt Hp)
    as (Hm & _ & Ht & _).
  split; [exact Hm|]. by destruct (Ht o eq_refl) as [-> _].
Defined.

(** X20. The deferred function of [dialTimeout] closes the connection
    exactly when an error is returned: when [dialTimeout] returns an error,
    either no connection was made or the deferred function has closed it;
    when it returns no error, [dialTimeout] has not closed the connection
    (which is as the factory left it), and what it returns, at the moment
    the factory returned, is the client of the factory, the factory having
    returned no error. *)
Theorem dialTimeout_closes_on_error `{GoLib} (env : client.DialEnv)
    (opts : list (option common.Option))
    (c : option client.State) (err : error) (conn : client.Conn) (t : Z) :
  client.dialTimeout env opts = client.DialReturns c err conn t ->
  (err <> None -> conn <> client.ConnOpen) /\
  (err = None ->
   conn = client.ConnOpen /\
   exists t' r, client.handshake env = Some (t', r) /\
                c = client.client_ r /\ client.err_ r = None /\ t = t').
Proof.
  set (P := fun (c : option client.State) (err : error) (conn : client.Conn)
                (t : Z) =>
         (err <> None -> conn <> client.ConnOpen) /\
         (err = None ->
          conn = client.ConnOpen /\
          exists t' r, client.handshake env = Some (t', r) /\
                       c = client.client_ r /\ client.err_ r = None /\ t = t')).
  assert (Hfail : forall e conn' t', conn' <> client.ConnOpen ->
            P None (Some e) conn' t') by (intros; by split).
  assert (Hfactory : forall t' r, client.handshake env = Some (t', r) ->
            P (client.client_ r) (client.err_ r)
              (client.deferred_close (client.err_ r)) t').
  { intros t' r Hh. unfold client.deferred_close. split.
    - intros Hne. by destruct (client.err_ r).
    - intros Hnone. rewrite Hnone. cbn. eauto 8. }
  change (client.dialTimeout env opts = client.DialReturns c err conn t ->
          P c err conn t).
  unfold client.dialTimeout.
  destruct (parseOptions_cases opts)
    as [[-> _] | [(o & rest & _ & _ & ->) | (o & _ & ->)]].
  2: { intros [= <- <- <- <-]. by apply Hfail. }
  all: destruct (client.dialErr env);
    [intros [= <- <- <- <-]; by apply Hfail|].
  all: destruct (_ =? 0);
    destruct (client.handshake env) as [[t' r]|] eqn:Hh; try done;
    try destruct (client.timer_selected _ _ _);
    intros [= <- <- <- <-];
    first [ by apply Hfactory | by apply Hfail ].
Qed.

Lemma dialTimeout_closes_on_error_witness :
  let env := {| client.dialErr := None;
                client.handshake :=
                  Some (5, {| client.client_ := None;
                              client.err_ := Some "invalid codec type x" |});
                client.timerFirst := false |} in
  exists c err conn t,
    @client.dialTimeout ascii_lib env [] = client.DialReturns c err conn t /\
    err = Some "invalid codec type x" /\
    conn <> client.ConnOpen.
Proof.
  intros env.
  destruct (@client.dialTimeout ascii_lib env []) as [c err conn t|] eqn:Hd;
    [|by vm_compute in Hd].
  exists c, err, conn, t. split; [done|].
  assert (Herr : err = Some "invalid codec type x").
  { vm_compute in Hd. by injection Hd as _ <- _ _. }
  split; [exact Herr|].
  apply (@dialTimeout_closes_on_error ascii_lib env [] c err conn t Hd).
  by rewrite Herr.
Defined.

(** X21. A handshake that finishes before the timer. When the factory
    returns sooner than a positive [ConnectTimeout] (ten seconds when no
    option is given), [dialTimeout] returns at that moment what the factory
    returned, and the connection is closed exactly when that carries an
    error. *)
Theorem dialTimeout_fast_handshake `{GoLib} (env : client.DialEnv)
    (opts : list (option common.Option)) (opt : common.Option)
    (t : Z) (r : client.clientResult) :
  client.parseOptions opts = (Some opt, None) ->
  client.dialErr env = None ->
  client.handshake env = Some (t, r) ->
  0 < common.ConnectTimeout opt ->
  t < common.ConnectTimeout opt ->
  client.dialTimeout env opts =
    client.DialReturns (client.client_ r) (client.err_ r)
      (if is_nil (client.err_ r) then client.ConnOpen else client.ConnClosed)
      t.
Proof.
  intros Hp Hd Hh Hpos Hlt. unfold client.dialTimeout.
  rewrite Hp, Hd, Hh.
  assert ((common.ConnectTimeout opt =? 0) = false) as -> by lia.
  unfold client.timer_selected, client.timer_at. rewrite Z.max_r by lia.
  assert ((common.ConnectTimeout opt <? t) = false) as -> by lia.
  by assert ((t <? common.ConnectTimeout opt) = true) as -> by lia.
Qed.

Lemma dialTimeout_fast_handshake_witness :
  let env := {| client.dialErr := None;
                client.handshake :=
                  Some (2000000000,
                        {| client.client_ := Some client.newClientCode;
                           client.err_ := None |});
                client.timerFirst := true |} in
  @client.dialTimeout ascii_lib env [] =
    client.DialReturns (Some client.newClientCode) None client.ConnOpen
                       2000000000.
Proof.
  intros env.
  apply (@dialTimeout_fast_handshake ascii_lib env [] common.DefaultOption
           2000000000 _ eq_refl eq_refl eq_refl); reflexivity.
Defined.

(** X22. [NewClient] and the codec table. The option [parseOptions] makes
    from a caller's option with an empty codec name, or with
    "application/gob", names a registered codec: over a connection that
    takes the option document, [NewClient] returns a new client, which is
    available, has nothing pending and gives [1] as its first sequence id.
    With any other codec name ("application/json" is declared but not
    registered) [NewClient] fails with "invalid codec type <name>" and
    does not close the connection itself. *)
Theorem NewClient_codec (o : common.Option) (encodeErr : error) :
  (common.CodeType o = "" \/ common.CodeType o = "application/gob" ->
   exists opt,
     client.parseOptions [Some o] = (Some opt, None) /\
     client.NewClient None opt =
       ({| client.client_ := Some client.newClientCode;
           client.err_ := None |}, false) /\
     client.IsAvailable client.newClientCode = true /\
     client.pending (client.cl client.newClientCode) = ∅ /\
     (client.registerCall 1%positive client.newClientCode).2 = (1, None))
  /\
  (common.CodeType o <> "application/gob" ->
   client.NewClient encodeErr o =
     ({| client.client_ := None;
         client.err_ := Some ("invalid codec type " +:+ common.CodeType o) |},
      false)).
Proof.
  split.
  - intros Hc. eexists. split; [reflexivity|]. split; [|done].
    unfold client.NewClient, xxcode.NewCodeFuncMap.
    cbn [common.CodeType].
    assert ((if String.eqb (common.CodeType o) ""
             then common.CodeType common.DefaultOption
             else common.CodeType o) = xxcode.Type_Gob) as ->.
    { destruct Hc as [->| ->]; reflexivity. }
    by rewrite lookup_singleton_eq.
  - intros Hne. unfold client.NewClient, xxcode.NewCodeFuncMap.
    rewrite lookup_singleton_ne; [done|]. unfold xxcode.Type_Gob. congruence.
Qed.

Lemma NewClient_codec_witness :
  let o := {| common.OptMagicNumber := 0;
              common.CodeType := "application/json";
              common.ConnectTimeout := 0; common.HandleTimeout := 0 |} in
  client.NewClient None o =
    ({| client.client_ := None;
        client.err_ := Some "invalid codec type application/json" |}, false).
Proof.
  intros o. apply (proj2 (NewClient_codec o None)). discriminate.
Defined.
